(** * Vector2d, Element/Button and the DOM instruction log

    A shallow embedding of [src/math/vector.ts]: the mutable [Vector2d]
    objects live in a heap and are handled through references, so that the
    aliasing the TypeScript code has is the aliasing of the model; the [DOM]
    registry is a record threaded through a state-and-exception monad. *)

From Stdlib Require Import ZArith List String Ascii Floats Reals Lra Lia.
From stdpp Require Import base option list sorting gmap strings pretty.

Local Open Scope string_scope.
Local Open Scope list_scope.
Local Open Scope nat_scope.

(** ** The JavaScript [number] operations the code uses

    [Vector2d] is written once, over this interface; it is instantiated with
    IEEE 754 binary64 ([PrimFloat], what the engine computes) and with the
    real numbers (exact arithmetic). *)

Class Number := {
  num : Type;
  num_zero : num;
  num_one : num;
  num_add : num -> num -> num;      (* a + b *)
  num_sub : num -> num -> num;      (* a - b *)
  num_mul : num -> num -> num;      (* a * b *)
  num_div : num -> num -> num;      (* a / b *)
  num_sq : num -> num;              (* a ** 2 *)
  num_root : num -> num;            (* a ** (1/2) *)
  num_cos : num -> num;             (* Math.cos(a) *)
  num_sin : num -> num;             (* Math.sin(a) *)
  num_atan2 : num -> num -> num;    (* Math.atan2(a, b) *)
  num_falsy : num -> bool           (* !a : a is 0, -0 or NaN *)
}.

Declare Scope num_scope.
Delimit Scope num_scope with num.
Notation "a + b" := (num_add a b) : num_scope.
Notation "a - b" := (num_sub a b) : num_scope.
Notation "a * b" := (num_mul a b) : num_scope.
Notation "a / b" := (num_div a b) : num_scope.

(** ** A state monad for code that mutates a store *)

Definition St (S A : Type) : Type := S -> A * S.

Definition st_ret {S A} (a : A) : St S A := fun s => (a, s).
Definition st_bind {S A B} (c : St S A) (k : A -> St S B) : St S B :=
  fun s => let (a, s') := c s in k a s'.
Definition st_get {S A} (f : S -> A) : St S A := fun s => (f s, s).
Definition st_modify {S} (f : S -> S) : St S unit := fun s => (tt, f s).

Declare Scope st_scope.
Delimit Scope st_scope with st.
Notation "x <- c ;; k" := (st_bind c (fun x => k))
  (at level 100, c at next level, right associativity) : st_scope.
Notation "c ;;; k" := (st_bind c (fun _ => k))
  (at level 100, right associativity) : st_scope.

(** ** class Vector2d *)

Module Vector2d.

(** The fields of one object. *)
Record obj {N : Number} : Type := Obj { x : num; y : num }.
Arguments Obj {N} x y.
Arguments x {N} o.
Arguments y {N} o.

(** A reference to a [Vector2d] object is its index in the heap; [new]
    appends, so the references in use are those below the heap's length. *)
Abbreviation ref := nat.
Abbreviation heap := (list obj).

Section Vector2d.
Context {N : Number}.

#[export] Instance obj_inhabited : Inhabited obj := populate (Obj num_zero num_zero).

Definition get_x (r : ref) : St heap num := st_get (fun h => x (h !!! r)).
Definition get_y (r : ref) : St heap num := st_get (fun h => y (h !!! r)).
Definition set_x (r : ref) (n : num) : St heap unit :=
  st_modify (fun h => <[r := Obj n (y (h !!! r))]> h).
Definition set_y (r : ref) (n : num) : St heap unit :=
  st_modify (fun h => <[r := Obj (x (h !!! r)) n]> h).

(** [a || 0] for an optional number [a]. *)
Definition or_zero (a : option num) : num :=
  match a with
  | Some n => if num_falsy n then num_zero else n
  | None => num_zero
  end.

(** [new Vector2d(x, y)] *)
Definition new (ox oy : option num) : St heap ref :=
  fun h => (length h, h ++ [Obj (or_zero ox) (or_zero oy)]).

Local Open Scope st_scope.

Definition add (this v : ref) : St heap ref :=
  a <- get_x this ;; b <- get_x v ;; set_x this (a + b)%num ;;;
  a <- get_y this ;; b <- get_y v ;; set_y this (a + b)%num ;;;
  st_ret this.

Definition sub (this v : ref) : St heap ref :=
  a <- get_x this ;; b <- get_x v ;; set_x this (a - b)%num ;;;
  a <- get_y this ;; b <- get_y v ;; set_y this (a - b)%num ;;;
  st_ret this.

Definition dot (this v : ref) : St heap num :=
  a <- get_x this ;; b <- get_x v ;;
  c <- get_y this ;; d <- get_y v ;;
  st_ret (a * b + c * d)%num.

Definition scale (this : ref) (n : num) : St heap ref :=
  a <- get_x this ;; set_x this (a * n)%num ;;;
  a <- get_y this ;; set_y this (a * n)%num ;;;
  st_ret this.

Definition magSq (this : ref) : St heap num :=
  a <- get_x this ;; b <- get_y this ;;
  st_ret (num_sq a + num_sq b)%num.

Definition mag (this : ref) : St heap num :=
  m <- magSq this ;; st_ret (num_root m).

Definition normalize (this : ref) : St heap ref :=
  m <- mag this ;; scale this (num_one / m)%num.

Definition setMag (this : ref) (n : num) : St heap ref :=
  r <- normalize this ;; scale r n.

Definition set (this : ref) (a b : num) : St heap unit :=
  set_x this a ;;; set_y this b.

Definition copy (this : ref) : St heap ref :=
  a <- get_x this ;; b <- get_y this ;; new (Some a) (Some b).

Definition angle (this : ref) : St heap num :=
  b <- get_y this ;; a <- get_x this ;; st_ret (num_atan2 b a).

Definition fromAngle (a : num) : St heap ref :=
  new (Some (num_cos a)) (Some (num_sin a)).

Definition fromPolar (o r : num) : St heap ref :=
  f <- fromAngle o ;; scale f r.

(** The static methods. *)

Definition static_add (v1 v2 : ref) : St heap ref :=
  c <- copy v1 ;; add c v2.

Definition static_sub (v1 v2 : ref) : St heap ref :=
  c <- copy v1 ;; sub c v2.

Definition static_scale (v : ref) (n : num) : St heap ref :=
  c <- copy v ;; scale c n.

Definition static_normalize (v : ref) : St heap ref :=
  c <- copy v ;; normalize c.

Definition static_setMag (v : ref) (n : num) : St heap ref :=
  c <- copy v ;; setMag c n.

Definition static_rotate (v : ref) (a : num) : St heap ref :=
  r <- mag v ;;
  o <- angle v ;;
  let o := (o + a)%num in
  f <- fromAngle o ;; scale f r.

(** The instance method [rotate], which returns nothing. *)
Definition rotate (this : ref) (a : num) : St heap unit :=
  v <- static_rotate this a ;;
  a <- get_x v ;; set_x this a ;;;
  b <- get_y v ;; set_y this b.

End Vector2d.
End Vector2d.

(** ** JavaScript values, as far as the registry handles them

    The option values handed to [createElement] are untyped at run time
    ([Array<any>]). A function value is known by its identity only; the
    arrow function [()=>{}] is [arrow_noop]. *)

Inductive fn : Type :=
  | arrow_noop
  | host_fn (n : nat).

Section Values.
Context {N : Number}.

Inductive value : Type :=
  | VUndefined
  | VNull
  | VBoolean (b : bool)
  | VNumber (n : num)
  | VString (s : string)
  | VVector (r : Vector2d.ref)
  | VFunction (f : fn).

(** [o.k ?? d], the right operand evaluated by the caller only when needed:
    [nullish (o.k)] says whether the left operand is [undefined] or [null]. *)
Definition nullish (v : option value) : bool :=
  match v with
  | None | Some VUndefined | Some VNull => true
  | Some _ => false
  end.

(** The value of reading property [k]: [undefined] when it is absent. *)
Definition read (o : gmap string value) (k : string) : value :=
  default VUndefined (o !! k).

End Values.

(** An object used as a string-keyed map, such as [options]. *)
Abbreviation props := (gmap string value).

(** [s.replace(/\s/g,'')] on strings of code units below 256: the white
    space there is TAB, LF, VT, FF, CR, SPACE and NBSP. *)
Definition is_space (c : ascii) : bool :=
  let n := nat_of_ascii c in
  ((9 <=? n) && (n <=? 13)) || (n =? 32) || (n =? 160).

Fixpoint replace_space (s : string) : string :=
  match s with
  | EmptyString => EmptyString
  | String c s' => if is_space c then replace_space s' else String c (replace_space s')
  end.

(** ** class Element and class Button *)

Module Element.
Section Element.
Context {N : Number}.

Record obj : Type := Obj {
  id : Z;
  pos : value;
  tag : value;
  events : props;
  innerText : value
}.

Definition with_id (n : Z) (e : obj) : obj :=
  Obj n (pos e) (tag e) (events e) (innerText e).
Definition with_events (ev : props) (e : obj) : obj :=
  Obj (id e) (pos e) (tag e) ev (innerText e).

Local Open Scope st_scope.

(** [new Element(options)]: the field initialisers [id=-1] and [events={}],
    then the three assignments of the constructor. *)
Definition new (options : props) : St Vector2d.heap obj :=
  p <- (if nullish (options !! "pos")
        then r <- Vector2d.new None None ;; st_ret (VVector r)
        else st_ret (read options "pos")) ;;
  let t := if nullish (options !! "tag") then VString "" else read options "tag" in
  let i := if nullish (options !! "innerText") then VString "" else read options "innerText" in
  st_ret (Obj (-1) p t ∅ i).

End Element.
End Element.

Module Button.
Section Button.
Context {N : Number}.

Local Open Scope st_scope.

(** [{...a, ...b}]: the properties of [b] win. *)
Definition spread (a b : props) : props := b ∪ a.

(** [new Button(options)] *)
Definition new (options : props) : St Vector2d.heap Element.obj :=
  e <- Element.new (spread options {[ "tag" := VString "button" ]}) ;;
  let click := if nullish (options !! "click") then VFunction arrow_noop
               else read options "click" in
  st_ret (Element.with_events (<[ "click" := click ]> (Element.events e)) e).

End Button.
End Button.

(** ** class DOM *)

Inductive error : Type := TypeError.

Inductive completion (A : Type) : Type :=
  | Normal (a : A)
  | Throw (e : error).
Arguments Normal {A} a.
Arguments Throw {A} e.

(** [JSON.stringify] belongs to the host; the registry only splices its
    result into an instruction. It reads the element and, through [pos], the
    vector the element refers to. On the values above it returns a string
    (it throws on a BigInt and on a cyclic object only, which are not among
    them). *)
Class Json {N : Number} := JSON_stringify : Vector2d.heap -> Element.obj -> string.

Module DOM.
Section DOM.
Context {N : Number} {J : Json}.

(** [uid] only counts up from 0, one step per element, and the log, an
    Array, holds fewer than 2^32 entries: the counter stays in the range
    where a JavaScript number is an exact integer, so it is a [nat]. *)
Record obj : Type := Obj {
  uid : nat;
  instructions : list string;
  elements : gmap nat Element.obj
}.

(** The store a method runs in: the vectors, and the fields of [this]. *)
Record world : Type := World {
  vectors : Vector2d.heap;
  this : obj
}.

(** State and exceptions: a method returns a completion and the store it
    leaves, also when it throws. *)
Definition M (A : Type) : Type := St world (completion A).

Definition ret {A} (a : A) : M A := fun w => (Normal a, w).
Definition throw {A} (e : error) : M A := fun w => (Throw e, w).
Definition bind {A B} (c : M A) (k : A -> M B) : M B :=
  fun w => match c w with
           | (Normal a, w') => k a w'
           | (Throw e, w') => (Throw e, w')
           end.
Definition get {A} (f : world -> A) : M A := fun w => (Normal (f w), w).
Definition modify_this (f : obj -> obj) : M unit :=
  fun w => (Normal tt, World (vectors w) (f (this w))).
Definition of_completion {A} (c : completion A) : M A := fun w => (c, w).
Definition on_vectors {A} (c : St Vector2d.heap A) : M A :=
  fun w => let (a, h) := c (vectors w) in (Normal a, World h (this w)).

Declare Scope dom_scope.
Delimit Scope dom_scope with dom.
Notation "x <- c ;; k" := (bind c (fun x => k))
  (at level 100, c at next level, right associativity) : dom_scope.
Notation "c ;;; k" := (bind c (fun _ => k))
  (at level 100, right associativity) : dom_scope.
Local Open Scope dom_scope.

(** [new DOM()] *)
Definition new : obj := Obj 0 [] ∅.

Definition instruct (instruction : string) : M unit :=
  modify_this (fun d => Obj (uid d) (instructions d ++ [instruction]) (elements d)).

(** [values.forEach((v,i) => { options[keys[i].replace(/\s/g,'')] = v })]:
    [keys[i]] is [undefined] past the end of [keys], and calling [replace]
    on it throws. The names are ordinary property names: [__proto__], which
    an object literal does not store as a property, is outside the model. *)
Fixpoint forEach (keys : list string) (i : nat) (values : list value)
    (options : props) : completion props :=
  match values with
  | [] => Normal options
  | v :: values' =>
      match keys !! i with
      | Some k => forEach keys (S i) values' (<[ replace_space k := v ]> options)
      | None => Throw TypeError
      end
  end.

(** [options.tag === 'button'], the [case] of the [switch]. *)
Definition is_button (v : option value) : bool :=
  match v with
  | Some (VString s) => String.eqb s "button"
  | _ => false
  end.

(** The [switch] on [options.tag], which picks the constructor. *)
Definition construct (options : props) : St Vector2d.heap Element.obj :=
  if is_button (options !! "tag") then Button.new options else Element.new options.

Definition createElement (keys : list string) (values : list value) : M Element.obj :=
  options <- of_completion (forEach keys 0 values ∅) ;;
  id <- get (fun w => uid (this w)) ;;
  modify_this (fun d => Obj (S (uid d)) (instructions d) (elements d)) ;;;
  e <- on_vectors (construct options) ;;
  let e := Element.with_id (Z.of_nat id) e in
  modify_this (fun d => Obj (uid d) (instructions d) (<[ id := e ]> (elements d))) ;;;
  js <- get (fun w => JSON_stringify (vectors w) e) ;;
  instruct ("createElement(" +:+ js +:+ ");") ;;;
  ret e.

(** The keys a [for (let id in this.elements)] loop visits: integer keys in
    ascending order. *)
Definition for_in (m : gmap nat Element.obj) : list nat :=
  merge_sort (≤) (map_to_list m).*1.

Fixpoint update_loop (ids : list nat) : M unit :=
  match ids with
  | [] => ret tt
  | id :: ids' =>
      oe <- get (fun w => elements (this w) !! id) ;;
      match oe with
      | Some e =>
          js <- get (fun w => JSON_stringify (vectors w) e) ;;
          instruct ("updateElement(" +:+ pretty (Element.id e) +:+ "," +:+ js +:+ ");") ;;;
          update_loop ids'
      | None => throw TypeError
      end
  end.

Definition update : M unit :=
  ids <- get (fun w => for_in (elements (this w))) ;;
  update_loop ids.

(** *** Callers *)

(** Successive [createElement] calls, each with its own arguments; [None]
    as soon as one of them throws. *)
Fixpoint create_all (calls : list (list string * list value)) (w : world)
    : option world :=
  match calls with
  | [] => Some w
  | (keys, values) :: calls' =>
      match createElement keys values w with
      | (Normal _, w') => create_all calls' w'
      | (Throw _, _) => None
      end
  end.

(** One call of a method of the registry. *)
Inductive op : Type :=
  | Instruct (instruction : string)
  | CreateElement (keys : list string) (values : list value)
  | Update.

Definition exec (o : op) : M (option Element.obj) :=
  match o with
  | Instruct s => instruct s ;;; ret None
  | CreateElement keys values => e <- createElement keys values ;; ret (Some e)
  | Update => update ;;; ret None
  end.

(** What the code that holds the registry does between two calls: anything
    to the vectors, and anything to the fields of a stored element except
    its [id], which is the registry's. *)
Inductive client_step : world -> world -> Prop :=
  | client_vectors (w : world) (h : Vector2d.heap) :
      client_step w (World h (this w))
  | client_element (w : world) (k : nat) (e e' : Element.obj) :
      elements (this w) !! k = Some e ->
      Element.id e' = Element.id e ->
      client_step w
        (World (vectors w)
           (Obj (uid (this w)) (instructions (this w)) (<[ k := e' ]> (elements (this w))))).

(** The stores a program can be in: a new registry, then method calls and
    client steps. *)
Inductive reachable : world -> Prop :=
  | reach_new (h : Vector2d.heap) : reachable (World h new)
  | reach_exec (o : op) (w : world) : reachable w -> reachable (snd (exec o w))
  | reach_client (w w' : world) : reachable w -> client_step w w' -> reachable w'.

(** In a well-formed registry an element is stored under its own [id],
    which the counter has passed. *)
Definition wf (d : obj) : Prop :=
  forall k e, elements d !! k = Some e -> Element.id e = Z.of_nat k /\ k < uid d.

End DOM.
End DOM.

(** ** The two readings of [number] *)

(** *** IEEE 754 binary64

    [+ - * /] are the kernel's binary64 operations. [**] and the [Math]
    functions come from the engine, so they are taken as a library [L]. *)

Module Float64.

Class MathLib : Type := {
  pow : float -> float -> float;        (* b ** e *)
  cos : float -> float;                 (* Math.cos *)
  sin : float -> float;                 (* Math.sin *)
  atan2 : float -> float -> float       (* Math.atan2(y, x) *)
}.

Definition is_falsy (a : float) : bool := (is_zero a || is_nan a)%bool.

Definition number {L : MathLib} : Number := {|
  num := float;
  num_zero := 0%float;
  num_one := 1%float;
  num_add := PrimFloat.add;
  num_sub := PrimFloat.sub;
  num_mul := PrimFloat.mul;
  num_div := PrimFloat.div;
  num_sq := fun a => pow a 2%float;
  num_root := fun a => pow a (1 / 2)%float;
  num_cos := cos;
  num_sin := sin;
  num_atan2 := atan2;
  num_falsy := is_falsy
|}.

(** What ECMAScript fixes about [L], as far as the proofs below need it:
    [Number::exponentiate] returns [+0] for a base [+0] and a positive
    exponent, and for a base [-0] and a positive exponent that is not an odd
    integer; [Math.cos] and [Math.sin] return NaN or an approximation of a
    value in [-1, 1], never an infinity. *)
Record ecma (L : MathLib) : Prop := {
  pow_pos_zero_2 : pow 0%float 2%float = 0%float;
  pow_neg_zero_2 : pow (-0)%float 2%float = 0%float;
  pow_pos_zero_half : pow 0%float (1 / 2)%float = 0%float;
  cos_not_infinite : forall a, is_infinity (cos a) = false;
  sin_not_infinite : forall a, is_infinity (sin a) = false
}.

(** A coarse library to run the model with: exact on the special values
    ECMAScript fixes and for the two exponents [Vector2d] uses, zeroth order
    elsewhere. *)
Definition coarse_pow (b e : float) : float :=
  if (e =? 2)%float then (b * b)%float
  else if (e =? 0.5)%float then
    (if (b =? neg_infinity)%float then infinity else (PrimFloat.sqrt b + 0)%float)
  else if is_zero e then 1%float
  else nan.

Definition coarse_cos (a : float) : float :=
  if (is_nan a || is_infinity a)%bool then nan else 1%float.

Definition coarse_sin (a : float) : float :=
  if (is_nan a || is_infinity a)%bool then nan
  else if is_zero a then a else 0%float.

Definition coarse_atan2 (b a : float) : float :=
  if (is_nan a || is_nan b)%bool then nan
  else if (is_zero b && (0 <? 1 / a)%float)%bool then b
  else 0%float.

Definition coarse : MathLib := {|
  pow := coarse_pow;
  cos := coarse_cos;
  sin := coarse_sin;
  atan2 := coarse_atan2
|}.

Definition is_nonfinite (a : float) : bool := (is_nan a || is_infinity a)%bool.

End Float64.

(** *** Exact real arithmetic *)

Module Exact.

(** [Math.atan2(y, x)]: the angle in (-PI, PI] of the point (x, y), and 0 at
    the origin. *)
Definition atan2 (b a : R) : R :=
  if Rlt_dec 0 a then atan (b / a)
  else if Rlt_dec a 0 then
    (if Rle_dec 0 b then atan (b / a) + PI else atan (b / a) - PI)%R
  else if Rlt_dec 0 b then (PI / 2)%R
  else if Rlt_dec b 0 then (- (PI / 2))%R
  else 0%R.

Definition number : Number := {|
  num := R;
  num_zero := 0%R;
  num_one := 1%R;
  num_add := Rplus;
  num_sub := Rminus;
  num_mul := Rmult;
  num_div := Rdiv;
  num_sq := fun a => (a * a)%R;
  num_root := sqrt;
  num_cos := Rtrigo_def.cos;
  num_sin := Rtrigo_def.sin;
  num_atan2 := atan2;
  num_falsy := fun a => if Req_dec_T a 0%R then true else false
|}.

End Exact.

(** A serialiser to run the registry with: it prints the [id] only. *)
Definition id_only {N : Number} : Json :=
  fun _ e => "{id:" +:+ pretty (Element.id e) +:+ "}".

(** The instance the closed examples run on. *)
Definition coarse64 : Number := @Float64.number Float64.coarse.

(** * Properties *)

(** ** Vector2d: what each method does to the heap *)

Section Vector2dFacts.
Context {N : Number}.
Import Vector2d.

Lemma insert_last (h : heap) (c o : obj) :
  <[length h := o]> (h ++ [c]) = h ++ [o].
Proof.
  rewrite insert_app_r_alt by lia. now rewrite Nat.sub_diag.
Qed.

Lemma lookup_last (h : heap) (c : obj) : (h ++ [c]) !!! length h = c.
Proof.
  rewrite lookup_total_app_r by lia. now rewrite Nat.sub_diag.
Qed.

(** Two successive field writes to one object are one write of the object. *)
Lemma insert_twice (h : heap) (r : ref) (o : obj) (f : obj -> obj) :
  <[r := f (<[r := o]> h !!! r)]> (<[r := o]> h)
  = if decide (r < length h) then <[r := f o]> h else h.
Proof.
  case_decide as Hr.
  - rewrite list_lookup_total_insert_eq by lia. apply list_insert_insert_eq.
  - rewrite (list_insert_ge h r o) by lia. apply list_insert_ge. lia.
Qed.

Lemma insert_out (h : heap) (r : ref) (o : obj) :
  (if decide (r < length h) then <[r := o]> h else h) = <[r := o]> h.
Proof.
  case_decide; [reflexivity | symmetry; apply list_insert_ge; lia].
Qed.

Lemma scale_eq (this : ref) (n : num) (h : heap) :
  scale this n h
  = (this, <[this := Obj (x (h !!! this) * n)%num (y (h !!! this) * n)%num]> h).
Proof.
  unfold scale, st_bind, st_ret, get_x, get_y, set_x, set_y, st_get, st_modify.
  f_equal.
  rewrite (insert_twice h this _ (fun o => Obj (x o) (y o * n)%num)).
  apply insert_out.
Qed.

Lemma add_eq (this v : ref) (h : heap) :
  add this v h
  = (this, <[this := Obj (x (h !!! this) + x (h !!! v))%num
                         (y (h !!! this) + y (h !!! v))%num]> h).
Proof.
  unfold add, st_bind, st_ret, get_x, get_y, set_x, set_y, st_get, st_modify.
  f_equal.
  set (o := Obj _ (y (h !!! this))).
  assert (Hv : y (<[this := o]> h !!! v) = y (h !!! v)).
  { rewrite list_lookup_total_insert. case_decide as H; [|reflexivity].
    destruct H as [<- _]. reflexivity. }
  rewrite Hv.
  rewrite (insert_twice h this o (fun o' => Obj (x o') (y o' + y (h !!! v))%num)).
  apply insert_out.
Qed.

Lemma sub_eq (this v : ref) (h : heap) :
  sub this v h
  = (this, <[this := Obj (x (h !!! this) - x (h !!! v))%num
                         (y (h !!! this) - y (h !!! v))%num]> h).
Proof.
  unfold sub, st_bind, st_ret, get_x, get_y, set_x, set_y, st_get, st_modify.
  f_equal.
  set (o := Obj _ (y (h !!! this))).
  assert (Hv : y (<[this := o]> h !!! v) = y (h !!! v)).
  { rewrite list_lookup_total_insert. case_decide as H; [|reflexivity].
    destruct H as [<- _]. reflexivity. }
  rewrite Hv.
  rewrite (insert_twice h this o (fun o' => Obj (x o') (y o' - y (h !!! v))%num)).
  apply insert_out.
Qed.

Lemma mag_eq (this : ref) (h : heap) :
  mag this h = (num_root (num_sq (x (h !!! this)) + num_sq (y (h !!! this)))%num, h).
Proof. reflexivity. Qed.

Lemma normalize_eq (this : ref) (h : heap) :
  normalize this h = scale this (num_one / fst (mag this h))%num h.
Proof. reflexivity. Qed.

Lemma setMag_eq (this : ref) (n : num) (h : heap) :
  setMag this n h = scale this n (snd (normalize this h)).
Proof.
  unfold setMag, st_bind. rewrite normalize_eq, scale_eq. reflexivity.
Qed.

Lemma copy_eq (this : ref) (h : heap) :
  copy this h
  = (length h, h ++ [Obj (or_zero (Some (x (h !!! this))))
                         (or_zero (Some (y (h !!! this))))]).
Proof. reflexivity. Qed.

Lemma static_rotate_eq (v : ref) (a : num) (h : heap) :
  static_rotate v a h
  = let r := fst (mag v h) in
    let o := (num_atan2 (y (h !!! v)) (x (h !!! v)) + a)%num in
    (length h, h ++ [Obj (or_zero (Some (num_cos o)) * r)%num
                         (or_zero (Some (num_sin o)) * r)%num]).
Proof.
  cbv [static_rotate st_bind angle fromAngle new get_x get_y st_get st_ret
       mag magSq fst].
  rewrite scale_eq, lookup_last, insert_last. reflexivity.
Qed.

Lemma rotate_eq (this : ref) (a : num) (h : heap) :
  rotate this a h
  = let (v, h') := static_rotate this a h in (tt, <[this := h' !!! v]> h').
Proof.
  unfold rotate, st_bind. rewrite static_rotate_eq. cbv zeta.
  set (o := Obj _ _).
  unfold get_x, get_y, set_x, set_y, st_get, st_modify.
  rewrite !lookup_last. f_equal.
  set (o1 := Obj (x o) _).
  assert (Hy : y (<[this := o1]> (h ++ [o]) !!! length h) = y o).
  { rewrite list_lookup_total_insert. case_decide as H.
    - destruct H as [-> _]. subst o1. cbn [y]. now rewrite lookup_last.
    - now rewrite lookup_last. }
  rewrite Hy.
  rewrite (insert_twice (h ++ [o]) this o1 (fun o' => Obj (x o') (y o))).
  rewrite insert_out. subst o1. cbn [x]. now destruct o.
Qed.

(** A static method that copies and then works on the copy leaves the heap
    it found as a prefix of the heap it returns, with one object appended. *)
Lemma on_copy (v : ref) (k : ref -> St heap ref) (h : heap) :
  (forall c, exists o, k (length h) (h ++ [c]) = (length h, h ++ [o])) ->
  exists o, st_bind (copy v) k h = (length h, h ++ [o]).
Proof.
  intros Hk. unfold st_bind. rewrite copy_eq. apply Hk.
Qed.

Lemma static_add_shape v1 v2 h : exists o, static_add v1 v2 h = (length h, h ++ [o]).
Proof.
  apply on_copy. intros c. rewrite add_eq, insert_last. eauto.
Qed.

Lemma static_sub_shape v1 v2 h : exists o, static_sub v1 v2 h = (length h, h ++ [o]).
Proof.
  apply on_copy. intros c. rewrite sub_eq, insert_last. eauto.
Qed.

Lemma static_scale_shape v n h : exists o, static_scale v n h = (length h, h ++ [o]).
Proof.
  apply on_copy. intros c. rewrite scale_eq, insert_last. eauto.
Qed.

Lemma static_normalize_shape v h : exists o, static_normalize v h = (length h, h ++ [o]).
Proof.
  apply on_copy. intros c. rewrite normalize_eq, scale_eq, insert_last. eauto.
Qed.

Lemma static_setMag_shape v n h : exists o, static_setMag v n h = (length h, h ++ [o]).
Proof.
  apply on_copy. intros c.
  rewrite setMag_eq, normalize_eq, !scale_eq. cbn [snd].
  rewrite !insert_last. eauto.
Qed.

Lemma static_rotate_shape v a h : exists o, static_rotate v a h = (length h, h ++ [o]).
Proof. rewrite static_rotate_eq. cbn zeta. eauto. Qed.

Lemma shape_frame (c : St heap ref) (h : heap) (r : ref) (p : obj) :
  (exists o, c h = (length h, h ++ [o])) ->
  h !! r = Some p ->
  fst (c h) = length h /\ snd (c h) !! r = Some p.
Proof.
  intros [o ->] Hr. split; [reflexivity|]. now apply lookup_app_l_Some.
Qed.

(** C5. Every static operation of Vector2d ([add], [sub], [scale],
    [normalize], [setMag], [rotate]) returns a reference to a new object
    (the copy it mutates, or for [rotate] the vector [fromAngle] builds),
    and every vector [p] that was in the heap at a reference [r] before the
    call, so each argument, is there with the same [x] and [y] after it. *)
Theorem static_methods_leave_arguments
    (h : heap) (r : ref) (p : obj) (v1 v2 : ref) (n a : num) :
  h !! r = Some p ->
  (fst (static_add v1 v2 h) = length h /\ snd (static_add v1 v2 h) !! r = Some p) /\
  (fst (static_sub v1 v2 h) = length h /\ snd (static_sub v1 v2 h) !! r = Some p) /\
  (fst (static_scale v1 n h) = length h /\ snd (static_scale v1 n h) !! r = Some p) /\
  (fst (static_normalize v1 h) = length h /\ snd (static_normalize v1 h) !! r = Some p) /\
  (fst (static_setMag v1 n h) = length h /\ snd (static_setMag v1 n h) !! r = Some p) /\
  (fst (static_rotate v1 a h) = length h /\ snd (static_rotate v1 a h) !! r = Some p).
Proof.
  intros Hr.
  repeat split; eapply shape_frame;
    eauto using static_add_shape, static_sub_shape, static_scale_shape,
      static_normalize_shape, static_setMag_shape, static_rotate_shape.
Qed.

End Vector2dFacts.

(** ** binary64: classifying a float by its specification *)

Section FloatFacts.

Lemma Prim2SF_not_nan (a : float) : is_nan a = false -> Prim2SF a <> S754_nan.
Proof.
  intros H. unfold Prim2SF. rewrite H.
  destruct (is_zero a); [discriminate|].
  destruct (is_infinity a); [discriminate|].
  destruct (Z.frexp a) as [r e].
  destruct (shr_fexp _ _ _ _ _) as [s e'].
  destruct (shr_m s); discriminate.
Qed.

Lemma Prim2SF_not_infinity (a : float) (s : bool) :
  is_nan a = false -> is_infinity a = false -> Prim2SF a <> S754_infinity s.
Proof.
  intros H1 H2. unfold Prim2SF. rewrite H1, H2.
  destruct (is_zero a); [discriminate|].
  destruct (Z.frexp a) as [r e].
  destruct (shr_fexp _ _ _ _ _) as [s' e'].
  destruct (shr_m s'); discriminate.
Qed.

Lemma zero_cases (a : float) : is_zero a = true -> a = 0%float \/ a = (-0)%float.
Proof.
  unfold is_zero. rewrite FloatAxioms.eqb_spec.
  change (Prim2SF zero) with (S754_zero false).
  destruct (Prim2SF a) as [s| | |] eqn:E; try discriminate.
  - intros _. rewrite <- (SF2Prim_Prim2SF a), E. destruct s; [right|left]; reflexivity.
  - destruct s; discriminate.
  - destruct s; discriminate.
Qed.

Lemma of_SF_zero (a : float) (s : bool) : Prim2SF a = S754_zero s -> is_zero a = true.
Proof.
  intros E. rewrite <- (SF2Prim_Prim2SF a), E. now destruct s.
Qed.

Lemma of_SF_nan (a : float) : Prim2SF a = S754_nan -> a = nan.
Proof.
  intros E. rewrite <- (SF2Prim_Prim2SF a), E. reflexivity.
Qed.

Lemma nan_mul (n : float) : (nan * n)%float = nan.
Proof. apply of_SF_nan. rewrite mul_spec. reflexivity. Qed.

Lemma zero_mul_infinity (a : float) : is_zero a = true -> (a * infinity)%float = nan.
Proof. intros [-> | ->]%zero_cases; reflexivity. Qed.

Lemma finite_mul_zero (c : float) :
  is_nan c = false -> is_infinity c = false -> is_zero (c * 0)%float = true.
Proof.
  intros H1 H2.
  pose proof (Prim2SF_not_nan c H1) as Hn.
  pose proof (fun s => Prim2SF_not_infinity c s H1 H2) as Hi.
  assert (E : exists s, Prim2SF (c * 0)%float = S754_zero s).
  { rewrite mul_spec. change (Prim2SF 0) with (S754_zero false).
    destruct (Prim2SF c) as [s| s| |s m e]; [eauto | | | eauto].
    - now destruct (Hi s).
    - now destruct Hn. }
  destruct E as [s E]. eapply of_SF_zero, E.
Qed.

Lemma zero_is_finite (a : float) : is_zero a = true -> Float64.is_nonfinite a = false.
Proof. intros [-> | ->]%zero_cases; reflexivity. Qed.

End FloatFacts.

(** ** Vector2d on the zero vector, in binary64 *)

Section ZeroVector.
Context {L : Float64.MathLib} (HL : Float64.ecma L).
Local Existing Instance Float64.number.
Import Vector2d.

Lemma mag_zero (zx zy : float) :
  is_zero zx = true -> is_zero zy = true ->
  num_root (num_sq zx + num_sq zy)%num = 0%float.
Proof.
  destruct HL as [H1 H2 H3 _ _].
  intros [-> | ->]%zero_cases [-> | ->]%zero_cases;
    lazy beta iota delta [num_root num_sq num_add Float64.number];
    rewrite ?H1, ?H2; exact H3.
Qed.

Lemma or_zero_zero (z : float) : is_zero z = true -> or_zero (Some z) = 0%float.
Proof.
  intros H. unfold or_zero.
  lazy beta iota delta [num_falsy num_zero Float64.number Float64.is_falsy].
  now rewrite H.
Qed.

(** What [fromAngle] stores is never NaN and never infinite. *)
Lemma or_zero_safe (c : float) :
  is_infinity c = false ->
  is_nan (or_zero (Some c)) = false /\ is_infinity (or_zero (Some c)) = false.
Proof.
  intros Hc. unfold or_zero.
  lazy beta iota delta [num_falsy num_zero Float64.number Float64.is_falsy].
  destruct (is_zero c); [now split|].
  destruct (is_nan c) eqn:E; [now split|]. now split.
Qed.

Lemma or_zero_cos_sin (o : float) :
  (is_nan (or_zero (Some (num_cos o))) = false /\
   is_infinity (or_zero (Some (num_cos o))) = false) /\
  (is_nan (or_zero (Some (num_sin o))) = false /\
   is_infinity (or_zero (Some (num_sin o))) = false).
Proof.
  destruct HL as [_ _ _ Hc Hs].
  split; apply or_zero_safe; [apply Hc | apply Hs].
Qed.

Lemma normalize_zero (h : heap) (v : ref) (zx zy : float) :
  h !! v = Some (Obj zx zy) -> is_zero zx = true -> is_zero zy = true ->
  normalize v h = (v, <[v := Obj nan nan]> h).
Proof.
  intros Hv Hx Hy.
  rewrite normalize_eq, mag_eq, scale_eq. cbn [fst].
  rewrite (list_lookup_total_correct _ _ _ Hv). cbn [x y].
  rewrite (mag_zero _ _ Hx Hy).
  lazy beta iota delta [num_one num_div num_mul Float64.number].
  change (1 / 0)%float with infinity.
  now rewrite !zero_mul_infinity.
Qed.

Lemma setMag_zero (h : heap) (v : ref) (zx zy n : float) :
  h !! v = Some (Obj zx zy) -> is_zero zx = true -> is_zero zy = true ->
  setMag v n h = (v, <[v := Obj nan nan]> h).
Proof.
  intros Hv Hx Hy.
  rewrite setMag_eq, (normalize_zero h v zx zy), scale_eq by assumption.
  cbn [snd].
  rewrite list_lookup_total_insert_eq by (eapply lookup_lt_Some, Hv).
  cbn [x y]. lazy beta iota delta [num_mul Float64.number].
  now rewrite nan_mul, list_insert_insert_eq.
Qed.

Lemma static_rotate_zero (h : heap) (v : ref) (zx zy a : float) :
  h !! v = Some (Obj zx zy) -> is_zero zx = true -> is_zero zy = true ->
  exists o, static_rotate v a h = (length h, h ++ [o])
            /\ is_zero (x o) = true /\ is_zero (y o) = true.
Proof.
  intros Hv Hx Hy.
  rewrite static_rotate_eq, mag_eq. cbn [fst].
  rewrite (list_lookup_total_correct _ _ _ Hv). cbn [x y].
  rewrite (mag_zero _ _ Hx Hy). cbv zeta.
  eexists. split; [reflexivity|]. cbn [x y].
  destruct (or_zero_cos_sin (Float64.atan2 zy zx + a)%float) as [[? ?] [? ?]].
  split; apply finite_mul_zero; assumption.
Qed.

(** C4, as the code has it. On a zero vector (each of [x], [y] is 0 or -0)
    no operation raises: [normalize] and [setMag n], in the instance and in
    the static form, leave NaN in both components, and [rotate], in both
    forms and for every angle, leaves a zero in both components, which is
    a finite number. *)
Theorem zero_vector_operations (h : heap) (v : ref) (zx zy n a : float) :
  h !! v = Some (Obj zx zy) -> is_zero zx = true -> is_zero zy = true ->
  snd (normalize v h) !! v = Some (Obj nan nan) /\
  snd (static_normalize v h) !! fst (static_normalize v h) = Some (Obj nan nan) /\
  snd (setMag v n h) !! v = Some (Obj nan nan) /\
  snd (static_setMag v n h) !! fst (static_setMag v n h) = Some (Obj nan nan) /\
  (exists o, snd (rotate v a h) !! v = Some o
             /\ is_zero (x o) = true /\ is_zero (y o) = true
             /\ Float64.is_nonfinite (x o) = false
             /\ Float64.is_nonfinite (y o) = false) /\
  (exists o, snd (static_rotate v a h) !! fst (static_rotate v a h) = Some o
             /\ is_zero (x o) = true /\ is_zero (y o) = true
             /\ Float64.is_nonfinite (x o) = false
             /\ Float64.is_nonfinite (y o) = false).
Proof.
  intros Hv Hx Hy.
  pose proof (lookup_lt_Some _ _ _ Hv) as Hlt.
  assert (Hc : forall k : ref -> St heap ref,
             (forall h', h' !! length h = Some (Obj 0%float 0%float) ->
                         k (length h) h' = (length h, <[length h := Obj nan nan]> h')) ->
             snd (st_bind (copy v) k h) !! fst (st_bind (copy v) k h) = Some (Obj nan nan)).
  { intros k Hk. unfold st_bind. rewrite copy_eq.
    rewrite (list_lookup_total_correct _ _ _ Hv). cbn [x y].
    rewrite !or_zero_zero by assumption.
    rewrite Hk by (rewrite lookup_app_r, Nat.sub_diag by lia; reflexivity).
    cbn [fst snd]. apply list_lookup_insert_eq. rewrite length_app. cbn. lia. }
  split_and!.
  - rewrite (normalize_zero h v zx zy) by assumption.
    now apply list_lookup_insert_eq.
  - apply Hc. intros h' Hh'. now apply (normalize_zero h' _ 0%float 0%float).
  - rewrite (setMag_zero h v zx zy) by assumption.
    now apply list_lookup_insert_eq.
  - apply Hc. intros h' Hh'. now apply (setMag_zero h' _ 0%float 0%float).
  - destruct (static_rotate_zero h v zx zy a Hv Hx Hy) as (o & E & Ho1 & Ho2).
    exists o. rewrite rotate_eq, E. cbn [snd].
    rewrite lookup_last, list_lookup_insert_eq by (rewrite length_app; lia).
    split_and!; auto using zero_is_finite.
  - destruct (static_rotate_zero h v zx zy a Hv Hx Hy) as (o & E & Ho1 & Ho2).
    exists o. rewrite E. cbn [fst snd].
    rewrite lookup_app_r, Nat.sub_diag by lia.
    split_and!; auto using zero_is_finite.
Qed.

End ZeroVector.

(** ** Vector2d.rotate in exact arithmetic *)

Section ExactRotation.
Local Existing Instance Exact.number.
Import Vector2d.
Local Open Scope R_scope.









End ExactRotation.

(** ** Element and Button *)

Section ElementFacts.
Context {N : Number}.

Lemma Element_new_eq (options : props) (h : Vector2d.heap) :
  Element.new options h
  = (Element.Obj (-1)
       (if nullish (options !! "pos") then VVector (length h) else read options "pos")
       (if nullish (options !! "tag") then VString "" else read options "tag")
       ∅
       (if nullish (options !! "innerText") then VString "" else read options "innerText"),
     if nullish (options !! "pos")
     then h ++ [Vector2d.Obj num_zero num_zero] else h).
Proof.
  unfold Element.new, st_bind, st_ret. now destruct (nullish (options !! "pos")).
Qed.

Lemma spread_tag (options : props) (k : string) :
  Button.spread options {[ "tag" := VString "button" ]} !! k
  = if decide (k = "tag") then Some (VString "button") else options !! k.
Proof.
  unfold Button.spread. case_decide as Hk.
  - subst k. apply lookup_union_Some_l, lookup_singleton_eq.
  - rewrite lookup_union_r; [reflexivity|]. now apply lookup_singleton_ne.
Qed.

Lemma Button_new_eq (options : props) (h : Vector2d.heap) :
  Button.new options h
  = (Element.Obj (-1)
       (if nullish (options !! "pos") then VVector (length h) else read options "pos")
       (VString "button")
       {[ "click" := if nullish (options !! "click") then VFunction arrow_noop
                     else read options "click" ]}
       (if nullish (options !! "innerText") then VString "" else read options "innerText"),
     if nullish (options !! "pos")
     then h ++ [Vector2d.Obj num_zero num_zero] else h).
Proof.
  unfold Button.new, st_bind, st_ret. rewrite Element_new_eq.
  unfold read. rewrite !spread_tag.
  repeat (case_decide; [discriminate|]). case_decide; [|congruence].
  cbn. now rewrite insert_empty.
Qed.

(** C6. Whatever the options, also with a [tag] of their own, the Button
    that [new Button(options)] builds has the tag [button], and its events
    map [click] to the value of [options.click] when there is one other
    than [undefined] or [null], and to the no-op arrow function otherwise. *)
Theorem button_tag_and_click (options : props) (h : Vector2d.heap) :
  Element.tag (fst (Button.new options h)) = VString "button" /\
  (forall f, options !! "click" = Some f -> nullish (Some f) = false ->
     Element.events (fst (Button.new options h)) !! "click" = Some f) /\
  (nullish (options !! "click") = true ->
     Element.events (fst (Button.new options h)) !! "click"
     = Some (VFunction arrow_noop)).
Proof.
  rewrite Button_new_eq. cbn [fst Element.tag Element.events].
  split_and!; [reflexivity| |].
  - intros f Hf Hn. rewrite lookup_singleton_eq. unfold read. now rewrite Hf, Hn.
  - intros Hn. now rewrite lookup_singleton_eq, Hn.
Qed.


(** C8, as the code has it. An Element (or Button) built with a vector as
    [options.pos] holds that very vector: the constructor allocates nothing
    and [pos] is the caller's reference, so what the caller then does to the
    vector in place ([add], [sub], [scale], [set]) is what the element's
    [pos] shows. *)
Theorem element_pos_is_the_callers_vector
    (options : props) (h : Vector2d.heap) (r v : Vector2d.ref) (p q : Vector2d.obj)
    (n a b : num) :
  options !! "pos" = Some (VVector r) -> h !! r = Some p -> h !! v = Some q ->
  (Element.pos (fst (Element.new options h)) = VVector r /\
   snd (Element.new options h) = h) /\
  (Element.pos (fst (Button.new options h)) = VVector r /\
   snd (Button.new options h) = h) /\
  snd (Vector2d.add r v h) !! r
    = Some (Vector2d.Obj (Vector2d.x p + Vector2d.x q)%num (Vector2d.y p + Vector2d.y q)%num) /\
  snd (Vector2d.sub r v h) !! r
    = Some (Vector2d.Obj (Vector2d.x p - Vector2d.x q)%num (Vector2d.y p - Vector2d.y q)%num) /\
  snd (Vector2d.scale r n h) !! r
    = Some (Vector2d.Obj (Vector2d.x p * n)%num (Vector2d.y p * n)%num) /\
  snd (Vector2d.set r a b h) !! r = Some (Vector2d.Obj a b).
Proof.
  intros Hpos Hr Hv.
  pose proof (lookup_lt_Some _ _ _ Hr) as Hlt.
  rewrite Element_new_eq, Button_new_eq, add_eq, sub_eq, scale_eq.
  unfold read. rewrite Hpos. cbn [nullish fst snd Element.pos default].
  rewrite (list_lookup_total_correct _ _ _ Hr), (list_lookup_total_correct _ _ _ Hv).
  split_and!; try reflexivity; try (now apply list_lookup_insert_eq).
  unfold Vector2d.set, st_bind, Vector2d.set_x, Vector2d.set_y, st_modify. cbn [snd].
  rewrite (insert_twice h r _ (fun o => Vector2d.Obj (Vector2d.x o) b)), insert_out.
  now apply list_lookup_insert_eq.
Qed.

End ElementFacts.

(** ** The registry *)

Section RegistryFacts.
Context {N : Number} {J : Json}.
Import DOM.

Lemma prefix_append (p r : string) : String.prefix p (p +:+ r) = true.
Proof.
  induction p as [|c p IH]; simpl.
  - now destruct r.
  - destruct (ascii_dec c c); [exact IH | congruence].
Qed.

(** *** [forEach] *)

Lemma forEach_throws (keys : list string) (values : list value) (i : nat) (o : props) :
  i <= length keys -> length keys < i + length values ->
  forEach keys i values o = Throw TypeError.
Proof.
  revert i o. induction values as [|v values IH]; intros i o Hi Hlen; cbn in *.
  - lia.
  - destruct (keys !! i) eqn:E; [|reflexivity].
    apply lookup_lt_Some in E. apply IH; lia.
Qed.

Lemma forEach_returns (keys : list string) (values : list value) (i : nat) (o : props) :
  i + length values <= length keys ->
  exists options,
    forEach keys i values o = Normal options /\
    forall k, k ∉ replace_space <$> take (length values) (drop i keys) ->
              options !! k = o !! k.
Proof.
  revert i o. induction values as [|v values IH]; intros i o Hlen; cbn in *.
  - eauto.
  - destruct (lookup_lt_is_Some_2 keys i) as [key E]; [lia|]. rewrite E.
    destruct (IH (S i) (<[replace_space key := v]> o)) as (options & -> & Hk); [lia|].
    exists options. split; [reflexivity|]. intros k Hnot.
    rewrite (drop_S _ _ _ E) in Hnot. cbn in Hnot.
    apply not_elem_of_cons in Hnot as [Hne Hnot].
    rewrite (Hk k Hnot). now apply lookup_insert_ne.
Qed.

(** *** [createElement], unfolded *)

Lemma createElement_eq (keys : list string) (values : list value) (w : world) :
  createElement keys values w
  = match forEach keys 0 values ∅ with
    | Throw err => (Throw err, w)
    | Normal options =>
        let e := Element.with_id (Z.of_nat (uid (this w)))
                   (fst (construct options (vectors w))) in
        let h := snd (construct options (vectors w)) in
        (Normal e,
         World h (Obj (S (uid (this w)))
                      (instructions (this w)
                       ++ ["createElement(" +:+ JSON_stringify h e +:+ ");"])
                      (<[ uid (this w) := e ]> (elements (this w)))))
    end.
Proof.
  unfold createElement, bind, of_completion, get, modify_this, on_vectors, instruct,
    DOM.ret.
  destruct (forEach keys 0 values ∅) as [options|err]; [|reflexivity].
  cbn -[construct]. now destruct (construct options (vectors w)).
Qed.


(** *** [update], unfolded *)

Local Abbreviation update_entry h e :=
  ("updateElement(" +:+ pretty (Element.id e) +:+ "," +:+ JSON_stringify h e +:+ ");")
  (only parsing).

Lemma update_loop_eq (ids : list nat) (h : Vector2d.heap) (u : nat)
    (l : list string) (m : gmap nat Element.obj) :
  Forall (fun id => is_Some (m !! id)) ids ->
  exists new,
    update_loop ids (World h (Obj u l m)) = (Normal tt, World h (Obj u (l ++ new) m)) /\
    Forall2 (fun id s => exists e, m !! id = Some e /\ s = update_entry h e) ids new.
Proof.
  revert l. induction ids as [|id ids IH]; intros l Hids.
  - exists []. rewrite app_nil_r. split; [reflexivity | constructor].
  - apply Forall_cons in Hids as [[e He] Hids].
    destruct (IH (l ++ [update_entry h e]) Hids) as (new & Hrun & Hnew).
    exists (update_entry h e :: new). split.
    + cbn [update_loop]. unfold bind at 1, get at 1.
      cbn [this elements]. rewrite He.
      unfold bind at 1, get at 1.
      unfold bind at 1, instruct at 1, modify_this at 1.
      cbn [this vectors uid instructions elements].
      rewrite Hrun. now rewrite <- app_assoc.
    + constructor; eauto.
Qed.

Lemma for_in_perm (m : gmap nat Element.obj) : for_in m ≡ₚ (map_to_list m).*1.
Proof. apply merge_sort_Permutation. Qed.

Lemma for_in_NoDup (m : gmap nat Element.obj) : NoDup (for_in m).
Proof. rewrite for_in_perm. apply NoDup_fst_map_to_list. Qed.

Lemma for_in_elem (m : gmap nat Element.obj) (id : nat) :
  id ∈ for_in m <-> is_Some (m !! id).
Proof.
  rewrite for_in_perm, list_elem_of_fmap. split.
  - intros [[k e] [-> He%elem_of_map_to_list]]. eauto.
  - intros [e He]. exists (id, e). split; [reflexivity|].
    now apply elem_of_map_to_list.
Qed.

Lemma for_in_length (m : gmap nat Element.obj) : length (for_in m) = size m.
Proof. now rewrite for_in_perm, length_fmap, length_map_to_list. Qed.

Lemma update_eq (w : world) :
  exists new,
    update w = (Normal tt,
                World (vectors w)
                  (Obj (uid (this w)) (instructions (this w) ++ new) (elements (this w)))) /\
    Forall2 (fun id s => exists e, elements (this w) !! id = Some e
                                   /\ s = update_entry (vectors w) e)
      (for_in (elements (this w))) new.
Proof.
  destruct w as [h [u l m]]. unfold update, bind at 1, get at 1. cbn.
  apply update_loop_eq, Forall_forall. intros id. apply for_in_elem.
Qed.


Lemma append_assoc (a b c : string) : (a +:+ b) +:+ c = a +:+ b +:+ c.
Proof.
  induction a as [|ch a IH]; [reflexivity|].
  change (String ch ((a +:+ b) +:+ c) = String ch (a +:+ b +:+ c)).
  now f_equal.
Qed.

(** *** The invariant of the registry *)

Lemma exec_instruct (s : string) (w : world) :
  exec (Instruct s) w
  = (Normal None,
     World (vectors w) (Obj (uid (this w)) (instructions (this w) ++ [s]) (elements (this w)))).
Proof. reflexivity. Qed.

Lemma exec_create (keys : list string) (values : list value) (w : world) :
  exec (CreateElement keys values) w
  = match createElement keys values w with
    | (Normal e, w') => (Normal (Some e), w')
    | (Throw err, w') => (Throw err, w')
    end.
Proof. reflexivity. Qed.

Lemma exec_update (w : world) :
  snd (exec Update w) = snd (update w).
Proof.
  unfold exec, bind. destruct (update w) as [[[]|err] w']; reflexivity.
Qed.

(** What a call can do to the fields of the registry: nothing, append to
    the log, or (a [createElement] that returns) store a new element under
    the current [uid], bump [uid] and append to the log. *)
Lemma exec_cases (o : op) (w : world) :
  (exists new, this (snd (exec o w))
               = Obj (uid (this w)) (instructions (this w) ++ new) (elements (this w))) \/
  (exists e s, fst (exec o w) = Normal (Some e) /\
               Element.id e = Z.of_nat (uid (this w)) /\
               this (snd (exec o w))
               = Obj (S (uid (this w))) (instructions (this w) ++ [s])
                     (<[ uid (this w) := e ]> (elements (this w)))).
Proof.
  destruct o as [s | keys values |].
  - left. exists [s]. reflexivity.
  - rewrite exec_create, createElement_eq.
    destruct (forEach keys 0 values ∅) as [options|err].
    + right. cbv zeta. eexists _, _. cbn [fst snd this]. eauto.
    + left. exists []. rewrite app_nil_r. now destruct w as [h []].
  - left. rewrite exec_update. destruct (update_eq w) as (new & -> & _).
    exists new. reflexivity.
Qed.

Lemma wf_new : wf new.
Proof. intros k e. cbn. now rewrite lookup_empty. Qed.

Lemma wf_exec (o : op) (w : world) : wf (this w) -> wf (this (snd (exec o w))).
Proof.
  intros Hwf.
  destruct (exec_cases o w) as [[new ->] | (e & s & _ & Hid & ->)]; intros k e'; cbn.
  - apply Hwf.
  - rewrite lookup_insert. case_decide as Hk.
    + intros [= <-]. subst k. split; [exact Hid | lia].
    + intros [? ?]%Hwf. split; [assumption | lia].
Qed.

Lemma wf_client (w w' : world) : client_step w w' -> wf (this w) -> wf (this w').
Proof.
  intros [w0 h | w0 k e e' He Hid] Hwf; [exact Hwf|].
  intros k' e''. cbn. rewrite lookup_insert. case_decide as Hk.
  - intros [= <-]. subst k'. rewrite Hid. now apply Hwf.
  - apply Hwf.
Qed.

Lemma reachable_wf (w : world) : reachable w -> wf (this w).
Proof.
  induction 1 as [h | o w _ IH | w w' _ IH Hstep].
  - apply wf_new.
  - now apply wf_exec.
  - now apply (wf_client w w').
Qed.


(** C10. When there are more values than keys, [createElement] throws a
    TypeError (the callback reads [keys[i]] past the end of [keys] and calls
    [replace] on [undefined]) and leaves the store as it found it: [uid],
    [elements], the instruction log, and the vectors. *)
Theorem createElement_more_values_than_keys
    (keys : list string) (values : list value) (w : world) :
  length keys < length values ->
  createElement keys values w = (Throw TypeError, w).
Proof.
  intros Hlen. rewrite createElement_eq, forEach_throws by lia. reflexivity.
Qed.

Lemma construct_eq (options : props) (h : Vector2d.heap) :
  exists ev,
    construct options h
    = (Element.Obj (-1)
         (if nullish (options !! "pos") then VVector (length h) else read options "pos")
         (if is_button (options !! "tag") then VString "button"
          else if nullish (options !! "tag") then VString "" else read options "tag")
         ev
         (if nullish (options !! "innerText") then VString ""
          else read options "innerText"),
       if nullish (options !! "pos")
       then h ++ [Vector2d.Obj num_zero num_zero] else h).
Proof.
  unfold construct. destruct (is_button (options !! "tag")).
  - rewrite Button_new_eq. eauto.
  - rewrite Element_new_eq. eauto.
Qed.

(** C7. When there are fewer values than keys, [createElement] returns
    normally. The options it built hold nothing under a name that is not
    among the (space-stripped) keys that got a value, so nothing for a key
    whose value is missing; and the element has the default for each of
    [tag], [pos], [innerText] that is absent from the options: the empty
    string, a new vector (0,0), the empty string. *)
Theorem createElement_fewer_values_than_keys
    (keys : list string) (values : list value) (w : world) :
  length values < length keys ->
  exists options e w',
    forEach keys 0 values ∅ = Normal options /\
    (forall k, k ∉ replace_space <$> take (length values) keys -> options !! k = None) /\
    createElement keys values w = (Normal e, w') /\
    (options !! "tag" = None -> Element.tag e = VString "") /\
    (options !! "pos" = None ->
       Element.pos e = VVector (length (vectors w)) /\
       vectors w' = vectors w ++ [Vector2d.Obj num_zero num_zero]) /\
    (options !! "innerText" = None -> Element.innerText e = VString "").
Proof.
  intros Hlen.
  destruct (forEach_returns keys values 0 ∅) as (options & Hrun & Hk); [lia|].
  rewrite createElement_eq, Hrun. cbv zeta.
  destruct (construct_eq options (vectors w)) as [ev ->].
  eexists options, _, _. split_and!; [reflexivity | | reflexivity | | |].
  - intros k Hnot. now rewrite (Hk k Hnot), lookup_empty.
  - intros ->. reflexivity.
  - intros ->. split; reflexivity.
  - intros ->. reflexivity.
Qed.

(** *** Successive calls *)

Lemma create_all_from (calls : list (list string * list value)) (w w' : world) :
  create_all calls w = Some w' ->
  uid (this w') = uid (this w) + length calls /\
  (exists new, instructions (this w') = instructions (this w) ++ new /\
               length new = length calls /\
               Forall (fun s => String.prefix "createElement(" s = true) new) /\
  (forall k, uid (this w) <= k < uid (this w) + length calls ->
             exists e, elements (this w') !! k = Some e /\ Element.id e = Z.of_nat k) /\
  (forall k, ~ uid (this w) <= k < uid (this w) + length calls ->
             elements (this w') !! k = elements (this w) !! k).
Proof.
  revert w. induction calls as [|[keys values] calls IH]; intros w Hrun;
    cbn [create_all] in Hrun.
  - injection Hrun as <-. cbn. split_and!.
    + lia.
    + exists []. now rewrite app_nil_r.
    + intros k ?. lia.
    + reflexivity.
  - rewrite createElement_eq in Hrun.
    destruct (forEach keys 0 values ∅) as [options|err]; [|discriminate].
    cbv zeta in Hrun.
    destruct (IH _ Hrun) as (Hu & (new & Hl & Hn & Hp) & Hin & Hout). clear IH Hrun.
    cbn [this uid instructions elements] in Hu, Hl, Hin, Hout. cbn [length].
    split_and!.
    + lia.
    + eexists (_ :: new). rewrite Hl, <- app_assoc. split_and!.
      * reflexivity.
      * cbn. now rewrite Hn.
      * constructor; [apply prefix_append | exact Hp].
    + intros k Hk. destruct (decide (k = uid (this w))) as [-> | Hne].
      * rewrite Hout by lia. rewrite lookup_insert_eq. eauto.
      * apply Hin. lia.
    + intros k Hk. rewrite Hout by lia. apply lookup_insert_ne. lia.
Qed.

(** C1. After [n] successive [createElement] calls on a new registry, all of
    which returned, [uid] is [n]; the registry stores [n] elements, under
    the keys 0..n-1 and nowhere else, each with its key as [id]; and the log
    has [n] entries, each starting with [createElement(]. *)
Theorem create_n_elements
    (h : Vector2d.heap) (calls : list (list string * list value)) (w' : world) :
  create_all calls (World h new) = Some w' ->
  uid (this w') = length calls /\
  size (elements (this w')) = length calls /\
  (forall k, k < length calls ->
     exists e, elements (this w') !! k = Some e /\ Element.id e = Z.of_nat k) /\
  (forall k, length calls <= k -> elements (this w') !! k = None) /\
  length (instructions (this w')) = length calls /\
  Forall (fun s => String.prefix "createElement(" s = true) (instructions (this w')).
Proof.
  intros Hrun.
  destruct (create_all_from _ _ _ Hrun) as (Hu & (log & Hl & Hn & Hp) & Hin & Hout).
  cbn [this uid instructions elements DOM.new] in *.
  assert (Hdom : dom (elements (this w')) = set_seq (C:=gset nat) 0 (length calls)).
  { apply set_eq. intros k. rewrite elem_of_dom, elem_of_set_seq. split.
    - intros Hk. destruct (decide (k < length calls)); [lia|].
      rewrite Hout, lookup_empty in Hk by lia. now destruct Hk.
    - intros Hk. destruct (Hin k) as (e & -> & _); [lia | eauto]. }
  split_and!.
  - exact Hu.
  - now rewrite <- size_dom, Hdom, size_set_seq.
  - intros k Hk. apply Hin. lia.
  - intros k Hk. rewrite Hout by lia. apply lookup_empty.
  - now rewrite Hl.
  - now rewrite Hl.
Qed.

(** C2. In a reachable store, whatever was done to the stored elements
    since they were created or last sent, one call of [update] returns
    normally, changes nothing but the log, and appends to it one entry per
    stored element: as many entries as there are elements, each starting
    with [updateElement(], the entries being [updateElement(id,...] for
    pairwise distinct keys [id] of stored elements. *)
Theorem update_appends_one_entry_per_element (w : world) :
  reachable w ->
  exists new ids,
    update w = (Normal tt,
                World (vectors w)
                  (Obj (uid (this w)) (instructions (this w) ++ new) (elements (this w)))) /\
    length new = size (elements (this w)) /\
    Forall (fun s => String.prefix "updateElement(" s = true) new /\
    NoDup ids /\
    Forall2 (fun id s =>
               is_Some (elements (this w) !! id) /\
               String.prefix ("updateElement(" +:+ pretty (Z.of_nat id) +:+ ",") s = true)
      ids new.
Proof.
  intros Hwf%reachable_wf.
  destruct (update_eq w) as (new & Hrun & Hnew).
  exists new, (for_in (elements (this w))). split_and!.
  - exact Hrun.
  - rewrite <- (Forall2_length _ _ _ Hnew). apply for_in_length.
  - eapply Forall2_Forall_r; [exact Hnew|]. apply Forall_forall.
    intros id _ s (e & _ & ->). apply prefix_append.
  - apply for_in_NoDup.
  - eapply Forall2_impl; [exact Hnew|]. intros id s (e & He & ->).
    split; [eauto|]. destruct (Hwf id e He) as [-> _].
    set (js := JSON_stringify (vectors w) e +:+ ");").
    replace ("updateElement(" +:+ pretty (Z.of_nat id) +:+ "," +:+ js)
      with (("updateElement(" +:+ pretty (Z.of_nat id) +:+ ",") +:+ js)
      by now rewrite !append_assoc.
    apply prefix_append.
Qed.

(** C3. In a reachable store every key of [elements] is below [uid]. A
    call of [instruct], [createElement] or [update] does not lower [uid],
    keeps every stored element under its key, and stores a new element only
    under the old [uid], which the call moves past; the [id] of an element
    that [createElement] returns is the old [uid], under which nothing was
    stored; and the log before the call is a prefix of the log after it. *)
Theorem registry_invariants (w : world) (o : op) :
  reachable w ->
  (forall k, is_Some (elements (this w) !! k) -> k < uid (this w)) /\
  uid (this w) <= uid (this (snd (exec o w))) /\
  (forall k e, elements (this w) !! k = Some e ->
               elements (this (snd (exec o w))) !! k = Some e) /\
  (forall k, elements (this w) !! k = None ->
             is_Some (elements (this (snd (exec o w))) !! k) ->
             k = uid (this w) /\ uid (this (snd (exec o w))) = S (uid (this w))) /\
  (forall e, fst (exec o w) = Normal (Some e) ->
             Element.id e = Z.of_nat (uid (this w)) /\
             elements (this w) !! uid (this w) = None /\
             uid (this (snd (exec o w))) = S (uid (this w))) /\
  instructions (this w) `prefix_of` instructions (this (snd (exec o w))).
Proof.
  intros Hwf%reachable_wf.
  assert (Hlt : forall k, is_Some (elements (this w) !! k) -> k < uid (this w)).
  { intros k [e He]. now apply (Hwf k e). }
  assert (Hfree : elements (this w) !! uid (this w) = None).
  { destruct (elements (this w) !! uid (this w)) as [e|] eqn:E; [|reflexivity].
    specialize (Hlt _ (mk_is_Some _ _ E)). lia. }
  split; [exact Hlt|].
  destruct (exec_cases o w) as [[new Hd] | (e & s & Hret & Hid & Hd)];
    rewrite Hd; cbn [uid instructions elements]; split_and!.
  - lia.
  - auto.
  - intros k -> [? ?]. discriminate.
  - intros e He. exfalso.
    destruct o as [s | keys values |].
    + discriminate.
    + rewrite exec_create, createElement_eq in He, Hd.
      destruct (forEach keys 0 values ∅); cbn in He, Hd; [|discriminate].
      injection Hd as Hu _ _. lia.
    + unfold exec, bind in He. destruct (update w) as [[[]|?] ?]; discriminate.
  - now apply prefix_app_r.
  - lia.
  - intros k e' He'. rewrite lookup_insert_ne; [assumption|].
    intros <-. specialize (Hlt _ (mk_is_Some _ _ He')). lia.
  - intros k Hnone Hsome. split; [|reflexivity].
    destruct (decide (uid (this w) = k)) as [<- | Hne]; [reflexivity|].
    rewrite lookup_insert_ne, Hnone in Hsome by assumption. now destruct Hsome.
  - intros e' He'. rewrite Hret in He'. injection He' as <-. auto.
  - now apply prefix_app_r.
Qed.

End RegistryFacts.

(** * The theorems at concrete inputs *)

Lemma coarse_ecma : Float64.ecma Float64.coarse.
Proof.
  split; try reflexivity; intros a; cbn; unfold Float64.coarse_cos, Float64.coarse_sin.
  - now destruct (is_nan a || is_infinity a)%bool.
  - destruct (is_nan a || is_infinity a)%bool eqn:E; [reflexivity|].
    destruct (is_zero a); [|reflexivity].
    apply orb_false_elim in E. apply E.
Qed.

Section Binary64Examples.
Local Existing Instance coarse64.
Local Existing Instance id_only.
Import Vector2d.

(** C4 as the spec states it fails for [rotate]: rotating the zero vector by
    the angle 0 gives the zero vector, whose components are finite. At this
    input every value the Math library returns is fixed by ECMAScript. *)
Lemma rotate_zero_vector_is_finite :
  static_rotate 0 0%float [Obj 0%float 0%float]
  = (1, [Obj 0%float 0%float; Obj 0%float 0%float]) /\
  rotate 0 0%float [Obj 0%float 0%float]
  = (tt, [Obj 0%float 0%float; Obj 0%float 0%float]) /\
  Float64.is_nonfinite 0%float = false.
Proof. vm_compute. repeat split. Qed.


Lemma zero_vector_operations_witness :
  is_zero 0%float = true /\
  snd (normalize 0 [Obj 0%float (-0)%float]) !! 0 = Some (Obj nan nan).
Proof.
  split; [reflexivity|].
  exact (proj1 (zero_vector_operations coarse_ecma [Obj 0%float (-0)%float] 0
                  0%float (-0)%float 2%float 1%float eq_refl eq_refl eq_refl)).
Defined.

Lemma static_methods_leave_arguments_witness :
  snd (static_add 0 1 [Obj 3%float 4%float; Obj 1%float 1%float]) !! 0
  = Some (Obj 3%float 4%float).
Proof.
  exact (proj2 (proj1 (static_methods_leave_arguments
                         [Obj 3%float 4%float; Obj 1%float 1%float]
                         0 (Obj 3%float 4%float) 0 1 2%float 1%float eq_refl))).
Defined.

(** C8 as the spec states it fails: the element keeps the caller's vector,
    so after the caller's [add] on it the element's [pos] shows (11, 22)
    where it showed (1, 2). *)
Lemma element_pos_shared_with_caller :
  Element.pos
    (fst (Element.new ({[ "pos" := VVector 0 ]} : props)
            [Obj 1%float 2%float; Obj 10%float 20%float]))
  = VVector 0 /\
  snd (Element.new ({[ "pos" := VVector 0 ]} : props)
         [Obj 1%float 2%float; Obj 10%float 20%float]) !! 0
  = Some (Obj 1%float 2%float) /\
  snd (add 0 1
         (snd (Element.new ({[ "pos" := VVector 0 ]} : props)
                 [Obj 1%float 2%float; Obj 10%float 20%float]))) !! 0
  = Some (Obj 11%float 22%float).
Proof. vm_compute. repeat split. Qed.

Lemma element_pos_is_the_callers_vector_witness :
  snd (add 0 1 [Obj 1%float 2%float; Obj 10%float 20%float]) !! 0
  = Some (Obj (1 + 10)%float (2 + 20)%float).
Proof.
  exact (proj1 (proj2 (proj2
           (element_pos_is_the_callers_vector ({[ "pos" := VVector 0 ]} : props)
              [Obj 1%float 2%float; Obj 10%float 20%float] 0 1
              (Obj 1%float 2%float) (Obj 10%float 20%float)
              2%float 5%float 6%float eq_refl eq_refl eq_refl)))).
Defined.

Lemma button_tag_and_click_witness :
  Element.tag
    (fst (Button.new ({[ "tag" := VString "div" ]} : props) []))
  = VString "button".
Proof.
  exact (proj1 (button_tag_and_click ({[ "tag" := VString "div" ]} : props) [])).
Defined.

Lemma createElement_more_values_than_keys_witness :
  length ["tag"] < length [VString "div"; VNull] /\
  DOM.createElement ["tag"] [VString "div"; VNull] (DOM.World [] DOM.new)
  = (Throw TypeError, DOM.World [] DOM.new).
Proof.
  split; [cbn; lia|].
  apply createElement_more_values_than_keys. cbn. lia.
Defined.

Lemma createElement_fewer_values_than_keys_witness :
  length [VString "div"] < length ["tag"; "pos"] /\
  exists options e w',
    DOM.forEach ["tag"; "pos"] 0 [VString "div"] ∅ = Normal options /\
    (forall k, k ∉ replace_space <$> take 1 ["tag"; "pos"] -> options !! k = None) /\
    DOM.createElement ["tag"; "pos"] [VString "div"] (DOM.World [] DOM.new)
    = (Normal e, w') /\
    (options !! "tag" = None -> Element.tag e = VString "") /\
    (options !! "pos" = None ->
       Element.pos e = VVector 0 /\ DOM.vectors w' = [Obj 0%float 0%float]) /\
    (options !! "innerText" = None -> Element.innerText e = VString "").
Proof.
  split; [cbn; lia|].
  exact (createElement_fewer_values_than_keys ["tag"; "pos"] [VString "div"]
           (DOM.World [] DOM.new) ltac:(cbn; lia)).
Defined.

Lemma create_n_elements_witness :
  exists w',
    DOM.create_all [(["tag"; "inner Text"], [VString "button"; VString "Go"]);
                    (["tag"], [VString "div"])]
      (DOM.World [] DOM.new) = Some w' /\
    DOM.uid (DOM.this w') = 2.
Proof.
  destruct (DOM.create_all
              [(["tag"; "inner Text"], [VString "button"; VString "Go"]);
               (["tag"], [VString "div"])]
              (DOM.World [] DOM.new)) as [w'|] eqn:E.
  - exists w'. split; [reflexivity|].
    exact (proj1 (create_n_elements [] _ w' E)).
  - vm_compute in E. discriminate.
Defined.

Lemma update_appends_one_entry_per_element_witness :
  exists (new : list string) (ids : list nat),
    DOM.update (snd (DOM.exec (DOM.CreateElement ["tag"] [VString "div"])
                       (DOM.World [] DOM.new)))
    = (Normal tt,
       DOM.World [Obj 0%float 0%float]
         (DOM.Obj 1 (["createElement({id:0});"] ++ new)
            (DOM.elements
               (DOM.this (snd (DOM.exec (DOM.CreateElement ["tag"] [VString "div"])
                                 (DOM.World [] DOM.new))))))) /\
    length new = 1 /\
    NoDup ids.
Proof.
  destruct (update_appends_one_entry_per_element
              (snd (DOM.exec (DOM.CreateElement ["tag"] [VString "div"])
                      (DOM.World [] DOM.new))))
    as (new & ids & Hrun & Hlen & _ & Hids & _).
  - apply DOM.reach_exec, DOM.reach_new.
  - exists new, ids. split_and!; [exact Hrun | exact Hlen | exact Hids].
Defined.

Lemma registry_invariants_witness :
  DOM.uid (DOM.this (snd (DOM.exec (DOM.Instruct "clear();") (DOM.World [] DOM.new))))
  <= DOM.uid (DOM.this
                (snd (DOM.exec (DOM.CreateElement ["tag"] [VString "div"])
                        (snd (DOM.exec (DOM.Instruct "clear();")
                                (DOM.World [] DOM.new)))))).
Proof.
  apply (registry_invariants
           (snd (DOM.exec (DOM.Instruct "clear();") (DOM.World [] DOM.new)))
           (DOM.CreateElement ["tag"] [VString "div"])).
  apply DOM.reach_exec, DOM.reach_new.
Defined.

End Binary64Examples.

Section ExactExamples.
Local Existing Instance Exact.number.
Import Vector2d.


End ExactExamples.

(** * Further properties *)

(** ** Vector2d: the methods that work in place *)

Section InPlace.
Context {N : Number}.
Import Vector2d.

Lemma vector_set_eq (this : ref) (a b : num) (h : heap) :
  set this a b h = (tt, <[this := Obj a b]> h).
Proof.
  unfold set, st_bind, set_x, set_y, st_modify. f_equal.
  rewrite (insert_twice h this _ (fun o => Obj (x o) b)). apply insert_out.
Qed.


End InPlace.

(** ** Vector2d in binary64: NaN, -0 and the infinities *)

Section Binary64Constructor.
Context {L : Float64.MathLib}.
Local Existing Instance Float64.number.
Import Vector2d.

Lemma or_zero_clean (c : option float) :
  is_nan (or_zero c) = false /\ (is_zero (or_zero c) = true -> or_zero c = 0%float).
Proof.
  unfold or_zero. destruct c as [c|]; [|now split].
  lazy beta iota delta [num_falsy num_zero Float64.number Float64.is_falsy].
  destruct (is_zero c) eqn:Hz; [now split|].
  destruct (is_nan c) eqn:Hn; [now split|].
  cbn [orb]. split; [assumption | congruence].
Qed.

(** X10. In binary64 a vector that comes out of the constructor, and so out
    of [copy] and [fromAngle], has no NaN and no -0 component: [x || 0]
    turns a missing argument, NaN, 0 and -0 into +0. *)
Theorem constructed_vector_is_clean (h : heap) (ox oy : option float) (v : ref) (a : float) :
  (exists o, snd (new ox oy h) !! fst (new ox oy h) = Some o
             /\ is_nan (x o) = false /\ is_nan (y o) = false
             /\ (is_zero (x o) = true -> x o = 0%float)
             /\ (is_zero (y o) = true -> y o = 0%float)) /\
  (exists o, snd (copy v h) !! fst (copy v h) = Some o
             /\ is_nan (x o) = false /\ is_nan (y o) = false
             /\ (is_zero (x o) = true -> x o = 0%float)
             /\ (is_zero (y o) = true -> y o = 0%float)) /\
  (exists o, snd (fromAngle a h) !! fst (fromAngle a h) = Some o
             /\ is_nan (x o) = false /\ is_nan (y o) = false
             /\ (is_zero (x o) = true -> x o = 0%float)
             /\ (is_zero (y o) = true -> y o = 0%float)).
Proof.
  assert (H : forall c d : option float,
             exists o, (h ++ [Obj (or_zero c) (or_zero d)]) !! length h = Some o
                       /\ is_nan (x o) = false /\ is_nan (y o) = false
                       /\ (is_zero (x o) = true -> x o = 0%float)
                       /\ (is_zero (y o) = true -> y o = 0%float)).
  { intros c d. eexists. split.
    - rewrite lookup_app_r, Nat.sub_diag by lia. reflexivity.
    - cbn [x y]. destruct (or_zero_clean c), (or_zero_clean d). auto. }
  split_and!; [apply H | rewrite copy_eq; apply H | apply H].
Qed.

Lemma nan_add (c : float) : (nan + c)%float = nan.
Proof. apply of_SF_nan. rewrite add_spec. reflexivity. Qed.

Lemma zero_add (c : float) : is_zero c = false -> (0 + c)%float = c.
Proof.
  intros Hz. apply Prim2SF_inj. rewrite add_spec.
  change (Prim2SF 0) with (S754_zero false).
  destruct (Prim2SF c) as [s| s| |s m e] eqn:E; try reflexivity.
  apply of_SF_zero in E. congruence.
Qed.

(** X11. In binary64 the static [add] and the instance [add] disagree on a
    NaN component of the first vector: [v1.add(v2)] keeps the NaN, while
    [Vector2d.add(v1, v2)] works on a copy in which the NaN has become 0,
    and so returns [0 + v2.x], which is [v2.x] unless that is a zero. *)
Theorem static_add_drops_nan (h : heap) (v1 v2 : ref) (b c d : float) :
  h !! v1 = Some (Obj nan b) -> h !! v2 = Some (Obj c d) ->
  x <$> snd (add v1 v2 h) !! v1 = Some nan /\
  x <$> snd (static_add v1 v2 h) !! fst (static_add v1 v2 h) = Some (0 + c)%float /\
  (is_zero c = false -> (0 + c)%float = c).
Proof.
  intros H1 H2. pose proof (lookup_lt_Some _ _ _ H1) as Hlt1.
  pose proof (lookup_lt_Some _ _ _ H2) as Hlt2.
  unfold static_add, st_bind. rewrite copy_eq, !add_eq. cbn [fst snd].
  rewrite insert_last, lookup_last.
  rewrite lookup_total_app_l by assumption.
  rewrite (list_lookup_total_correct _ _ _ H1), (list_lookup_total_correct _ _ _ H2).
  rewrite list_lookup_insert_eq by assumption.
  rewrite lookup_app_r, Nat.sub_diag by lia.
  cbn [x y fmap option_fmap option_map lookup list_lookup].
  split_and!.
  - f_equal. apply nan_add.
  - reflexivity.
  - apply zero_add.
Qed.

Lemma float_mul_comm (a b : float) : (a * b)%float = (b * a)%float.
Proof.
  apply Prim2SF_inj. rewrite !mul_spec. unfold SF64mul, SFmul.
  destruct (Prim2SF a) as [s| s| |s m e], (Prim2SF b) as [s'| s'| |s' m' e'];
    rewrite ?(xorb_comm s' s); try reflexivity.
  now rewrite (Pos.mul_comm m' m), (Z.add_comm e' e).
Qed.

(** X8. In binary64 [dot] changes nothing in the heap, and [v.dot(w)] and
    [w.dot(v)] are the same number, NaN and infinities included. *)
Theorem dot_is_symmetric (h : heap) (v w : ref) :
  snd (dot v w h) = h /\ fst (dot v w h) = fst (dot w v h).
Proof.
  unfold dot, st_bind, get_x, get_y, st_get, st_ret. cbn [fst snd].
  split; [reflexivity|].
  generalize (x (h !!! v)) (x (h !!! w)) (y (h !!! v)) (y (h !!! w)).
  lazy beta iota delta [num num_add num_mul Float64.number]. intros a b c d.
  now rewrite (float_mul_comm a), (float_mul_comm c).
Qed.

Lemma nonfinite_cases (a : float) :
  Float64.is_nonfinite a = true ->
  Prim2SF a = S754_nan \/ exists s, Prim2SF a = S754_infinity s.
Proof.
  unfold Float64.is_nonfinite, Prim2SF. destruct (is_nan a); [now left|].
  cbn [orb]. intros Hi. rewrite Hi.
  destruct (is_zero a) eqn:Hz; [|eauto].
  apply zero_cases in Hz as [-> | ->]; discriminate.
Qed.

Lemma of_SF_nonfinite (a : float) :
  Prim2SF a = S754_nan \/ (exists s, Prim2SF a = S754_infinity s) ->
  Float64.is_nonfinite a = true.
Proof.
  intros [E | [s E]]; rewrite <- (SF2Prim_Prim2SF a), E; [reflexivity | now destruct s].
Qed.

Lemma add_nonfinite (t a : float) :
  Float64.is_nonfinite a = true -> Float64.is_nonfinite (t + a)%float = true.
Proof.
  intros Ha. apply of_SF_nonfinite. rewrite add_spec. unfold SF64add, SFadd.
  destruct (nonfinite_cases a Ha) as [-> | [s ->]].
  - left. now destruct (Prim2SF t).
  - destruct (Prim2SF t) as [s'| s'| |s' m e]; eauto.
    destruct s', s; eauto.
Qed.

Lemma zero_mul_finite (r : float) :
  Float64.is_nonfinite r = false -> is_zero (0 * r)%float = true.
Proof.
  intros Hr. rewrite float_mul_comm.
  apply orb_false_elim in Hr as [Hn Hi]. now apply finite_mul_zero.
Qed.

(** X21. In binary64, with a [Math.cos] and a [Math.sin] that return NaN at
    NaN and at the infinities, as ECMAScript has them, a NaN or infinite
    angle raises nothing and leaves no NaN: [fromAngle] returns (0, 0), and
    the static [rotate] returns (0 * r, 0 * r) for the length [r] of the
    vector, so a zero vector whenever [r] is finite. The direction is lost
    without a sign of it. *)
Theorem rotate_by_nonfinite_angle (h : heap) (v : ref) (a : float) :
  (forall t, Float64.is_nonfinite t = true -> Float64.cos t = nan) ->
  (forall t, Float64.is_nonfinite t = true -> Float64.sin t = nan) ->
  Float64.is_nonfinite a = true ->
  snd (fromAngle a h) !! fst (fromAngle a h) = Some (Obj 0%float 0%float) /\
  snd (static_rotate v a h) !! fst (static_rotate v a h)
    = Some (Obj (0 * fst (mag v h))%float (0 * fst (mag v h))%float) /\
  (Float64.is_nonfinite (fst (mag v h)) = false ->
   is_zero (0 * fst (mag v h))%float = true).
Proof.
  intros Hc Hs Ha.
  assert (Hnew : forall t, Float64.is_nonfinite t = true ->
                           or_zero (Some (num_cos t)) = 0%float
                           /\ or_zero (Some (num_sin t)) = 0%float).
  { intros t Ht. unfold or_zero.
    lazy beta iota delta [num_falsy num_zero num_cos num_sin Float64.number].
    rewrite (Hc t Ht), (Hs t Ht). now split. }
  split_and!.
  - unfold fromAngle, new. cbn [fst snd].
    destruct (Hnew a Ha) as [-> ->].
    now rewrite lookup_app_r, Nat.sub_diag by lia.
  - rewrite static_rotate_eq. cbv zeta. cbn [fst snd].
    rewrite lookup_app_r, Nat.sub_diag by lia. cbn [lookup list_lookup].
    assert (Hsum : forall t : float,
               or_zero (Some (num_cos (num_add t a))) = 0%float
               /\ or_zero (Some (num_sin (num_add t a))) = 0%float)
      by (intros t; apply Hnew, add_nonfinite, Ha).
    now rewrite (proj1 (Hsum _)), (proj2 (Hsum _)).
  - apply zero_mul_finite.
Qed.

End Binary64Constructor.

(** ** The registry: arguments, dispatch, and what a call leaves *)

Section RegistryMore.
Context {N : Number} {J : Json}.
Import DOM.

(** X12. [createElement] throws exactly when it is given more values than
    keys: with as many values as keys, or fewer, it returns an element. *)
Theorem createElement_throws_iff (keys : list string) (values : list value) (w : world) :
  (length keys < length values <-> fst (createElement keys values w) = Throw TypeError) /\
  (length values <= length keys <-> exists e, fst (createElement keys values w) = Normal e).
Proof.
  rewrite createElement_eq.
  destruct (le_lt_dec (length values) (length keys)) as [Hle | Hlt].
  - destruct (forEach_returns keys values 0 ∅) as (options & -> & _); [lia|].
    cbn. split; split; intros; try lia; try discriminate; eauto.
  - rewrite forEach_throws by lia. cbn. split; split; intros H; try lia; try reflexivity.
    destruct H as [e He]. discriminate.
Qed.

Lemma forEach_last_wins (keys : list string) (values : list value) (i0 : nat)
    (o options : props) (j : nat) (k : string) (v : value) :
  forEach keys i0 values o = Normal options ->
  keys !! (i0 + j) = Some k -> values !! j = Some v ->
  (forall j' k', j < j' -> j' < length values -> keys !! (i0 + j') = Some k' ->
                 replace_space k' <> replace_space k) ->
  options !! replace_space k = Some v.
Proof.
  revert i0 o j. induction values as [|v0 values IH]; intros i0 o j Hrun Hk Hv Hlater.
  - discriminate.
  - cbn in Hrun. destruct (keys !! i0) as [k0|] eqn:E0; [|discriminate].
    destruct j as [|j].
    + rewrite Nat.add_0_r in Hk. injection Hv as ->.
      assert (k0 = k) as -> by congruence.
      destruct (le_lt_dec (S i0 + length values) (length keys)) as [Hle | Hlt].
      * destruct (forEach_returns keys values (S i0) (<[replace_space k := v]> o))
          as (options' & Hrun' & Hout); [lia|].
        rewrite Hrun' in Hrun. injection Hrun as <-.
        rewrite Hout; [apply lookup_insert_eq|].
        intros (k' & Hkk & Hin)%list_elem_of_fmap.
        apply list_elem_of_lookup in Hin as [j' Hj'].
        apply lookup_take_Some in Hj' as [Hj' Hlen].
        rewrite lookup_drop in Hj'.
        apply (Hlater (S j') k'); cbn; try lia; [|congruence].
        now rewrite <- Nat.add_succ_comm.
      * rewrite forEach_throws in Hrun by (apply lookup_lt_Some in E0; lia).
        discriminate.
    + apply (IH (S i0) _ j Hrun).
      * now rewrite Nat.add_succ_comm.
      * exact Hv.
      * intros j' k' Hj Hlen Hk'. apply (Hlater (S j') k'); cbn; try lia.
        now rewrite <- Nat.add_succ_comm.
Qed.

(** X13. The options [createElement] builds pair [keys[i]], stripped of its
    white space, with [values[i]]; when several keys that get a value strip
    to the same name, the value of the last one is the option. This is for
    calls in which no key that gets a value strips to [__proto__], a name
    under which an assignment stores no property. *)
Theorem options_last_key_wins (keys : list string) (values : list value)
    (options : props) (i : nat) (k : string) (v : value) :
  Forall (fun k' => replace_space k' <> "__proto__") (take (length values) keys) ->
  forEach keys 0 values ∅ = Normal options ->
  keys !! i = Some k -> values !! i = Some v ->
  (forall j k', i < j -> j < length values -> keys !! j = Some k' ->
                replace_space k' <> replace_space k) ->
  options !! replace_space k = Some v.
Proof.
  intros _ Hrun Hk Hv Hlater.
  apply (forEach_last_wins keys values 0 ∅ options i k v Hrun Hk Hv).
  exact Hlater.
Qed.

(** X14. What a [createElement] that returns leaves: the element it returns
    is stored under the old [uid] and carries it as [id]; [uid] is one
    more; no other key of [elements] changes; and the log has one more
    entry, [createElement(] followed by the serialisation of that element,
    taken with the vectors as they are after the call, and [);]. *)
Theorem createElement_postcondition
    (keys : list string) (values : list value) (w w' : world) (e : Element.obj) :
  createElement keys values w = (Normal e, w') ->
  elements (this w') !! uid (this w) = Some e /\
  Element.id e = Z.of_nat (uid (this w)) /\
  uid (this w') = S (uid (this w)) /\
  (forall k, k <> uid (this w) -> elements (this w') !! k = elements (this w) !! k) /\
  instructions (this w')
  = instructions (this w) ++ ["createElement(" +:+ JSON_stringify (vectors w') e +:+ ");"].
Proof.
  rewrite createElement_eq.
  destruct (forEach keys 0 values ∅) as [options|err]; [|discriminate].
  cbv zeta. intros [= <- <-]. cbn [this vectors uid instructions elements].
  split_and!; try reflexivity.
  - apply lookup_insert_eq.
  - intros k Hk. now apply lookup_insert_ne.
Qed.

Lemma is_button_iff (o : option value) :
  is_button o = true <-> o = Some (VString "button").
Proof.
  unfold is_button. destruct o as [[| | | |s| |]|]; try (split; intros; discriminate).
  rewrite String.eqb_eq. split; [now intros -> | now intros [= ->]].
Qed.

(** X15. [createElement] builds a Button exactly when the option [tag] is
    the string [button]: then [events] holds [click] and nothing else, bound
    to the option [click], or to the no-op when that is absent, [undefined]
    or [null]. For any other [tag] it builds a plain Element: [events] is
    empty and [tag] is the option as given, of whatever type, or the empty
    string when it is absent, [undefined] or [null]. In both cases
    [innerText] is treated the same way, and [pos] is the option as given,
    or a new vector when it is absent, [undefined] or [null]. *)
Theorem createElement_dispatch
    (keys : list string) (values : list value) (options : props)
    (w w' : world) (e : Element.obj) :
  forEach keys 0 values ∅ = Normal options ->
  createElement keys values w = (Normal e, w') ->
  (options !! "tag" = Some (VString "button") ->
     Element.tag e = VString "button" /\
     Element.events e
     = {[ "click" := if nullish (options !! "click") then VFunction arrow_noop
                     else read options "click" ]}) /\
  (options !! "tag" <> Some (VString "button") ->
     Element.events e = ∅ /\
     Element.tag e = if nullish (options !! "tag") then VString ""
                     else read options "tag") /\
  Element.innerText e = (if nullish (options !! "innerText") then VString ""
                         else read options "innerText") /\
  Element.pos e = (if nullish (options !! "pos") then VVector (length (vectors w))
                   else read options "pos").
Proof.
  intros Hrun. rewrite createElement_eq, Hrun. cbv zeta. intros [= <- <-].
  unfold construct. destruct (is_button (options !! "tag")) eqn:Hb.
  - apply is_button_iff in Hb. rewrite Button_new_eq. cbn.
    split_and!; [auto | congruence | reflexivity | reflexivity].
  - rewrite Element_new_eq. cbn. split_and!; [|auto|reflexivity|reflexivity].
    intros Htag%is_button_iff. congruence.
Qed.


Lemma Forall2_functional {A B} (R : A -> B -> Prop) (l : list A) (k1 k2 : list B) :
  (forall a b1 b2, R a b1 -> R a b2 -> b1 = b2) ->
  Forall2 R l k1 -> Forall2 R l k2 -> k1 = k2.
Proof.
  intros HR H1. revert k2. induction H1 as [|a b l k1 Hab _ IH]; intros k2 H2.
  - now inversion H2.
  - inversion H2 as [|? b' ? k2' Hab' H2']; subst. f_equal; eauto.
Qed.

(** X16. [update] keeps no record of what it has sent: it changes nothing
    but the log, and calling it twice in a row appends the same entries
    twice. With no element stored it appends nothing. *)
Theorem update_twice (w : world) :
  exists new,
    snd (update w)
    = World (vectors w)
        (Obj (uid (this w)) (instructions (this w) ++ new) (elements (this w))) /\
    snd (update (snd (update w)))
    = World (vectors w)
        (Obj (uid (this w)) (instructions (this w) ++ new ++ new) (elements (this w))) /\
    length new = size (elements (this w)) /\
    (elements (this w) = ∅ -> new = []).
Proof.
  destruct (update_eq w) as (new & Hrun & Hnew).
  destruct (update_eq (snd (update w))) as (new' & Hrun' & Hnew').
  rewrite Hrun in Hrun', Hnew'. cbn [snd this vectors uid instructions elements] in *.
  assert (new' = new) as ->.
  { eapply Forall2_functional; [|exact Hnew'|exact Hnew].
    intros id s1 s2 (e1 & He1 & ->) (e2 & He2 & ->). congruence. }
  exists new. rewrite Hrun. cbn [snd]. rewrite Hrun'. cbn [snd]. rewrite <- app_assoc.
  assert (Hlen : length new = size (elements (this w))).
  { rewrite <- (Forall2_length _ _ _ Hnew). apply for_in_length. }
  split_and!; try reflexivity; [exact Hlen|].
  intros Hempty. rewrite Hempty, map_size_empty in Hlen. now destruct new.
Qed.

Lemma sorted_nodup_strict (l : list nat) :
  StronglySorted le l -> NoDup l -> StronglySorted lt l.
Proof.
  induction 1 as [|a l Hs IH Hall]; intros Hnd; constructor.
  - apply IH. now apply NoDup_cons in Hnd as [_ ?].
  - apply NoDup_cons in Hnd as [Hnot _].
    apply Forall_forall. intros b Hb.
    rewrite Forall_forall in Hall. specialize (Hall b Hb).
    assert (a <> b) by (intros ->; contradiction). lia.
Qed.

(** X17. In a reachable store [update] sends the elements in increasing
    order of [id]: for the stored keys [id], each once and smallest first,
    it appends [updateElement(id,] followed by the serialisation of the
    element stored under [id], taken with the vectors as they are at the
    time of the call, and [);]. *)
Theorem update_in_id_order (w : world) :
  reachable w ->
  exists new ids,
    instructions (this (snd (update w))) = instructions (this w) ++ new /\
    StronglySorted lt ids /\
    (forall id, id ∈ ids <-> is_Some (elements (this w) !! id)) /\
    Forall2 (fun id s =>
               exists e, elements (this w) !! id = Some e /\
                         s = "updateElement(" +:+ pretty (Z.of_nat id) +:+ ","
                             +:+ JSON_stringify (vectors w) e +:+ ");")
      ids new.
Proof.
  intros Hwf%reachable_wf.
  destruct (update_eq w) as (new & Hrun & Hnew).
  exists new, (for_in (elements (this w))). rewrite Hrun. split_and!.
  - reflexivity.
  - apply sorted_nodup_strict; [|apply for_in_NoDup].
    apply StronglySorted_merge_sort; apply _.
  - intros id. apply for_in_elem.
  - eapply Forall2_impl; [exact Hnew|]. intros id s (e & He & ->).
    exists e. split; [assumption|]. now destruct (Hwf id e He) as [-> _].
Qed.

(** X18. No method of the registry changes a vector: [instruct] and
    [update] leave the vectors as they are, and [createElement] either
    leaves them as they are or appends one new (0, 0), which it does exactly
    when it returns and the option [pos] is absent, [undefined] or [null]. *)
Theorem registry_leaves_vectors (o : op) (w : world) :
  match o with
  | Instruct _ | Update => vectors (snd (exec o w)) = vectors w
  | CreateElement keys values =>
      match forEach keys 0 values ∅ with
      | Normal options =>
          vectors (snd (exec o w))
          = if nullish (options !! "pos")
            then vectors w ++ [Vector2d.Obj num_zero num_zero]
            else vectors w
      | Throw _ => vectors (snd (exec o w)) = vectors w
      end
  end.
Proof.
  destruct o as [s | keys values |].
  - reflexivity.
  - rewrite exec_create, createElement_eq.
    destruct (forEach keys 0 values ∅) as [options|err]; [|reflexivity].
    cbv zeta. cbn [snd vectors].
    destruct (construct_eq options (vectors w)) as [ev ->]. reflexivity.
  - rewrite exec_update. destruct (update_eq w) as (new & -> & _). reflexivity.
Qed.

(** X19. Two elements created one after the other without a [pos] option do
    not share their default vector: each gets a [pos] of its own, both
    (0, 0) after the second call, so that moving one of them in place does
    not move the other. *)
Theorem default_pos_not_shared
    (keys1 keys2 : list string) (values1 values2 : list value)
    (options1 options2 : props) (w w1 w2 : world) (e1 e2 : Element.obj) :
  forEach keys1 0 values1 ∅ = Normal options1 ->
  forEach keys2 0 values2 ∅ = Normal options2 ->
  nullish (options1 !! "pos") = true -> nullish (options2 !! "pos") = true ->
  createElement keys1 values1 w = (Normal e1, w1) ->
  createElement keys2 values2 w1 = (Normal e2, w2) ->
  exists r1 r2,
    Element.pos e1 = VVector r1 /\ Element.pos e2 = VVector r2 /\ r1 <> r2 /\
    vectors w2 !! r1 = Some (Vector2d.Obj num_zero num_zero) /\
    vectors w2 !! r2 = Some (Vector2d.Obj num_zero num_zero) /\
    (forall a b, snd (Vector2d.set r1 a b (vectors w2)) !! r2
                 = Some (Vector2d.Obj num_zero num_zero)).
Proof.
  intros Hrun1 Hrun2 Hn1 Hn2.
  rewrite !createElement_eq, Hrun1, Hrun2. cbv zeta.
  destruct (construct_eq options1 (vectors w)) as [ev1 ->].
  intros [= <- <-]. cbn [vectors fst snd].
  destruct (construct_eq options2
              (if nullish (options1 !! "pos")
               then vectors w ++ [Vector2d.Obj num_zero num_zero] else vectors w))
    as [ev2 ->].
  intros [= <- <-]. cbn [vectors fst snd Element.pos Element.with_id].
  rewrite Hn1, Hn2.
  exists (length (vectors w)), (length (vectors w ++ [Vector2d.Obj num_zero num_zero])).
  rewrite length_app. cbn [length].
  assert (H1 : ((vectors w ++ [Vector2d.Obj num_zero num_zero])
                ++ [Vector2d.Obj num_zero num_zero]) !! length (vectors w)
               = Some (Vector2d.Obj num_zero num_zero)).
  { rewrite lookup_app_l by (rewrite length_app; cbn; lia).
    now rewrite lookup_app_r, Nat.sub_diag by lia. }
  assert (H2 : ((vectors w ++ [Vector2d.Obj num_zero num_zero])
                ++ [Vector2d.Obj num_zero num_zero]) !! (length (vectors w) + 1)
               = Some (Vector2d.Obj num_zero num_zero)).
  { rewrite lookup_app_r by (rewrite length_app; cbn; lia).
    rewrite length_app. cbn [length]. now rewrite Nat.sub_diag. }
  split_and!; try reflexivity; try assumption; [lia|].
  intros a b. rewrite vector_set_eq. cbn [snd].
  rewrite list_lookup_insert_ne by lia. exact H2.
Qed.

End RegistryMore.

(** ** Stripping white space from a key *)

Section ReplaceSpace.

Lemma replace_space_append (s t : string) :
  replace_space (s +:+ t) = replace_space s +:+ replace_space t.
Proof.
  induction s as [|c s IH]; [reflexivity|].
  change (String c s +:+ t) with (String c (s +:+ t)). cbn [replace_space].
  destruct (is_space c); [exact IH|].
  change (String c (replace_space s) +:+ replace_space t)
    with (String c (replace_space s +:+ replace_space t)).
  now f_equal.
Qed.

Lemma replace_space_fixed (s : string) :
  Forall (fun c => is_space c = false) (list_ascii_of_string s) -> replace_space s = s.
Proof.
  induction s as [|c s IH]; [reflexivity|]. cbn [list_ascii_of_string replace_space].
  intros [Hc Hs]%Forall_cons. rewrite Hc. f_equal. now apply IH.
Qed.

Lemma replace_space_clean (s : string) :
  Forall (fun c => is_space c = false) (list_ascii_of_string (replace_space s)).
Proof.
  induction s as [|c s IH]; [constructor|]. cbn [replace_space].
  destruct (is_space c) eqn:Hc; [exact IH|]. now constructor.
Qed.

(** X20. Stripping the white space of a key leaves no white-space
    character, changes nothing in a key that has none, does nothing more
    when applied again, works piece by piece on a concatenation, and never
    makes a key longer: keys that differ only in white space name one
    option. *)
Theorem replace_space_facts (s t : string) :
  Forall (fun c => is_space c = false) (list_ascii_of_string (replace_space s)) /\
  (Forall (fun c => is_space c = false) (list_ascii_of_string s) -> replace_space s = s) /\
  replace_space (replace_space s) = replace_space s /\
  replace_space (s +:+ t) = replace_space s +:+ replace_space t /\
  String.length (replace_space s) <= String.length s.
Proof.
  split_and!.
  - apply replace_space_clean.
  - apply replace_space_fixed.
  - apply replace_space_fixed, replace_space_clean.
  - apply replace_space_append.
  - induction s as [|c s IH]; [reflexivity|]. cbn [replace_space].
    destruct (is_space c); cbn [String.length]; lia.
Qed.

End ReplaceSpace.


(** ** The further properties at concrete inputs *)

Section Binary64MoreExamples.
Local Existing Instance coarse64.
Local Existing Instance id_only.
Import Vector2d.


Lemma rotate_by_nonfinite_angle_witness :
  Float64.is_nonfinite infinity = true /\
  snd (static_rotate 0 infinity [Obj 3%float 4%float])
    !! fst (static_rotate 0 infinity [Obj 3%float 4%float])
  = Some (Obj (0 * fst (mag 0 [Obj 3%float 4%float]))%float
              (0 * fst (mag 0 [Obj 3%float 4%float]))%float).
Proof.
  split; [reflexivity|].
  assert (Hc : forall t, Float64.is_nonfinite t = true -> Float64.coarse_cos t = nan).
  { intros t Ht. unfold Float64.coarse_cos. unfold Float64.is_nonfinite in Ht.
    now rewrite Ht. }
  assert (Hs : forall t, Float64.is_nonfinite t = true -> Float64.coarse_sin t = nan).
  { intros t Ht. unfold Float64.coarse_sin. unfold Float64.is_nonfinite in Ht.
    now rewrite Ht. }
  exact (proj1 (proj2 (rotate_by_nonfinite_angle (L := Float64.coarse)
                         [Obj 3%float 4%float] 0 infinity Hc Hs eq_refl))).
Defined.

Lemma static_add_drops_nan_witness :
  x <$> snd (static_add 0 1 [Obj nan 4%float; Obj 1%float 1%float])
          !! fst (static_add 0 1 [Obj nan 4%float; Obj 1%float 1%float])
  = Some (0 + 1)%float.
Proof.
  exact (proj1 (proj2 (static_add_drops_nan (L := Float64.coarse)
                         [Obj nan 4%float; Obj 1%float 1%float] 0 1
                         4%float 1%float 1%float eq_refl eq_refl))).
Defined.

Lemma options_last_key_wins_witness :
  exists options : props,
    DOM.forEach ["tag"; "t a g"] 0 [VString "div"; VString "button"] ∅ = Normal options /\
    options !! "tag" = Some (VString "button").
Proof.
  destruct (DOM.forEach ["tag"; "t a g"] 0 [VString "div"; VString "button"] ∅)
    as [options|err] eqn:E.
  - exists options. split; [reflexivity|].
    exact (options_last_key_wins ["tag"; "t a g"] [VString "div"; VString "button"]
             options 1 "t a g" (VString "button")
             ltac:(repeat constructor; discriminate) E eq_refl eq_refl
             ltac:(cbn; intros; lia)).
  - vm_compute in E. discriminate.
Defined.

Lemma createElement_postcondition_witness :
  exists e w',
    DOM.createElement ["tag"; "innerText"] [VString "button"; VString "Go"]
      (DOM.World [] DOM.new) = (Normal e, w') /\
    DOM.elements (DOM.this w') !! 0 = Some e.
Proof.
  destruct (DOM.createElement ["tag"; "innerText"] [VString "button"; VString "Go"]
              (DOM.World [] DOM.new)) as [[e|err] w'] eqn:E.
  - exists e, w'. split; [reflexivity|].
    exact (proj1 (createElement_postcondition _ _ _ w' e E)).
  - vm_compute in E. discriminate.
Defined.

Lemma createElement_dispatch_witness :
  exists options e w',
    DOM.forEach ["tag"; "innerText"] 0 [VString "button"; VString "Go"] ∅
    = Normal options /\
    DOM.createElement ["tag"; "innerText"] [VString "button"; VString "Go"]
      (DOM.World [] DOM.new) = (Normal e, w') /\
    Element.innerText e = VString "Go".
Proof.
  destruct (DOM.forEach ["tag"; "innerText"] 0 [VString "button"; VString "Go"] ∅)
    as [options|err] eqn:Eo; [|vm_compute in Eo; discriminate].
  destruct (DOM.createElement ["tag"; "innerText"] [VString "button"; VString "Go"]
              (DOM.World [] DOM.new)) as [[e|err] w'] eqn:E;
    [|vm_compute in E; discriminate].
  exists options, e, w'. split_and!; [reflexivity | reflexivity |].
  rewrite (proj1 (proj2 (proj2 (createElement_dispatch _ _ options _ w' e Eo E)))).
  vm_compute in Eo. injection Eo as <-. reflexivity.
Defined.

Lemma update_in_id_order_witness :
  exists (new : list string) (ids : list nat),
    DOM.instructions
      (DOM.this (snd (DOM.update
                        (snd (DOM.exec (DOM.CreateElement ["tag"] [VString "div"])
                                (DOM.World [] DOM.new))))))
    = ["createElement({id:0});"] ++ new /\
    StronglySorted lt ids.
Proof.
  destruct (update_in_id_order
              (snd (DOM.exec (DOM.CreateElement ["tag"] [VString "div"])
                      (DOM.World [] DOM.new)))
              (DOM.reach_exec _ _ (DOM.reach_new [])))
    as (new & ids & Hlog & Hsorted & _).
  exists new, ids. split; [exact Hlog | exact Hsorted].
Defined.

Lemma default_pos_not_shared_witness :
  exists e1 e2 w1 w2,
    DOM.createElement ["tag"] [VString "div"] (DOM.World [] DOM.new) = (Normal e1, w1) /\
    DOM.createElement ["tag"] [VString "p"] w1 = (Normal e2, w2) /\
    exists r1 r2, Element.pos e1 = VVector r1 /\ Element.pos e2 = VVector r2 /\ r1 <> r2.
Proof.
  destruct (DOM.createElement ["tag"] [VString "div"] (DOM.World [] DOM.new))
    as [[e1|err] w1] eqn:E1; [|vm_compute in E1; discriminate].
  destruct (DOM.createElement ["tag"] [VString "p"] w1)
    as [[e2|err] w2] eqn:E2.
  - exists e1, e2, w1, w2. split_and!; [reflexivity | exact E2 |].
    destruct (default_pos_not_shared ["tag"] ["tag"] [VString "div"] [VString "p"]
                _ _ _ w1 w2 e1 e2 eq_refl eq_refl eq_refl eq_refl E1 E2)
      as (r1 & r2 & H1 & H2 & Hne & _).
    exists r1, r2. auto.
  - exfalso. vm_compute in E1. injection E1 as <- <-. vm_compute in E2. discriminate.
Defined.

End Binary64MoreExamples.
